(** * GPS Telegram bot: route decomposition and live guidance

    Shallow embedding of [src/guide.py] (class [Guide]) and of the
    guidance part of [src/main_bot.py].

    Modelling conventions.
    - Python floats are modelled by rationals [Q]: comparisons, additions
      and subtractions are exact, rounding is not modelled.
    - The packages [haversine], [osmnx] and [networkx] are not part of the
      repository.  The great-circle distance and the compass bearing are
      section variables; the street graph is a record of look-up functions
      ([Graph]).
    - A Python exception is a value [Err e] of the type [result].
    - The elements of a route are dynamically typed in the source (a
      coordinate tuple, an [int] OpenStreetMap id, or [None]); they are the
      three constructors of [waypoint].
    - Text messages sent to the user are modelled by their content (a
      constructor of [event]), except for the turning message, which is the
      string of the source. *)

From Stdlib Require Import ZArith QArith Qabs Qround List String Ascii Bool
  Lia Lqa.
Import ListNotations.

Local Open Scope Z_scope.

(** ** Exceptions *)

Inductive exn : Type :=
| KeyError
| IndexError
| TypeError
| ExternalError (name : string).

Inductive result (A : Type) : Type :=
| Ok (a : A)
| Err (e : exn).

Arguments Ok {A} a.
Arguments Err {A} e.

Definition bind {A B : Type} (r : result A) (k : A -> result B) : result B :=
  match r with
  | Ok a => k a
  | Err e => Err e
  end.

Declare Scope result_scope.
Delimit Scope result_scope with result.
Notation "x <- r ;; k" := (bind r (fun x => k))
  (at level 61, r at next level, right associativity) : result_scope.
Local Open Scope result_scope.

Definition of_option {A : Type} (e : exn) (o : option A) : result A :=
  match o with
  | Some a => Ok a
  | None => Err e
  end.

(** ** Comparisons on rationals, as booleans *)

Definition Qltb (x y : Q) : bool := negb (Qle_bool y x).

(** ** Python lists: indexing with negative indices, [pop] *)

Definition py_get {A : Type} (l : list A) (i : Z) : result A :=
  let n := Z.of_nat (List.length l) in
  if (0 <=? i) && (i <? n) then of_option IndexError (nth_error l (Z.to_nat i))
  else if (- n <=? i) && (i <? 0) then
    of_option IndexError (nth_error l (Z.to_nat (n + i)))
  else Err IndexError.

Fixpoint set_nth {A : Type} (l : list A) (k : nat) (a : A) : list A :=
  match l, k with
  | [], _ => []
  | _ :: t, O => a :: t
  | x :: t, S k' => x :: set_nth t k' a
  end.

Definition py_set {A : Type} (l : list A) (i : Z) (a : A) : result (list A) :=
  let n := Z.of_nat (List.length l) in
  if (0 <=? i) && (i <? n) then Ok (set_nth l (Z.to_nat i) a)
  else if (- n <=? i) && (i <? 0) then Ok (set_nth l (Z.to_nat (n + i)) a)
  else Err IndexError.

Definition py_pop {A : Type} (l : list A) : result (list A) :=
  match l with
  | [] => Err IndexError
  | _ => Ok (removelast l)
  end.

(** ** Data model *)

Definition Coordinates : Type := (Q * Q)%type.   (* (latitude, longitude) *)
Definition OSMid : Type := Z.

Inductive waypoint : Type :=
| WCoords (c : Coordinates)
| WNode (n : OSMid)
| WNone.

(** [isinstance(w, OSMid)] *)
Definition is_OSMid (w : waypoint) : bool :=
  match w with
  | WNode _ => true
  | _ => false
  end.

Record RouteLeg : Type := mkLeg {
  leg_src : waypoint;
  leg_current_name : option string;
  leg_length : option Q;
  leg_mid : waypoint;
  leg_next_name : option string;
  leg_dst : waypoint;
  leg_angle : option Q
}.

Definition set_src (l : RouteLeg) (v : waypoint) : RouteLeg :=
  mkLeg v (leg_current_name l) (leg_length l) (leg_mid l) (leg_next_name l)
        (leg_dst l) (leg_angle l).
Definition set_current_name (l : RouteLeg) (v : option string) : RouteLeg :=
  mkLeg (leg_src l) v (leg_length l) (leg_mid l) (leg_next_name l)
        (leg_dst l) (leg_angle l).
Definition set_length (l : RouteLeg) (v : option Q) : RouteLeg :=
  mkLeg (leg_src l) (leg_current_name l) v (leg_mid l) (leg_next_name l)
        (leg_dst l) (leg_angle l).
Definition set_mid (l : RouteLeg) (v : waypoint) : RouteLeg :=
  mkLeg (leg_src l) (leg_current_name l) (leg_length l) v (leg_next_name l)
        (leg_dst l) (leg_angle l).
Definition set_next_name (l : RouteLeg) (v : option string) : RouteLeg :=
  mkLeg (leg_src l) (leg_current_name l) (leg_length l) (leg_mid l) v
        (leg_dst l) (leg_angle l).
Definition set_dst (l : RouteLeg) (v : waypoint) : RouteLeg :=
  mkLeg (leg_src l) (leg_current_name l) (leg_length l) (leg_mid l)
        (leg_next_name l) v (leg_angle l).
Definition set_angle (l : RouteLeg) (v : option Q) : RouteLeg :=
  mkLeg (leg_src l) (leg_current_name l) (leg_length l) (leg_mid l)
        (leg_next_name l) (leg_dst l) v.

(** The attribute dictionary of an edge: [.get('name')], [.get('length')]. *)
Record EdgeData : Type := mkEdge {
  edge_name : option string;
  edge_length : option Q
}.

(** The street graph, as far as [Guide] reads it.
    - [nodes n] is [(graph.nodes[n]['y'], graph.nodes[n]['x'])];
    - [adj u v] is [graph[u][v][0]];
    - [nearest_edges x y] is [ox.distance.nearest_edges(G, X=x, Y=y)];
    - [shortest_path s t] is [nx.shortest_path(G, source=s, target=t)]. *)
Record Graph : Type := mkGraph {
  nodes : OSMid -> option Coordinates;
  adj : OSMid -> OSMid -> option EdgeData;
  nearest_edges : Q -> Q -> result (OSMid * OSMid * Z);
  shortest_path : OSMid -> OSMid -> result (list OSMid)
}.

Inductive Unit : Type := KILOMETERS | METERS.

(** ** guide.py *)

Section Guide.

(** [haversine(point1, point2, unit)] of the package [haversine]. *)
Variable haversine : Coordinates -> Coordinates -> Unit -> Q.
(** [ox.bearing.calculate_bearing(lat1, lon1, lat2, lon2)]. *)
Variable calculate_bearing : Q -> Q -> Q -> Q -> Q.

(** [haversine] unpacks its two points: anything but a tuple raises. *)
Definition py_haversine (point1 point2 : waypoint) (unit : Unit)
  : result Q :=
  match point1, point2 with
  | WCoords c1, WCoords c2 => Ok (haversine c1 c2 unit)
  | _, _ => Err TypeError
  end.

(** [min(a, b)] of Python: the first argument unless the second is
    strictly smaller. *)
Definition py_min (a b : Q) : Q := if Qltb b a then b else a.

(** [self.graph[u][v][0]]: only node ids are keys of the adjacency. *)
Definition graph_edge (g : Graph) (u v : waypoint) : result EdgeData :=
  match u, v with
  | WNode a, WNode b => of_option KeyError (adj g a b)
  | _, _ => Err KeyError
  end.

(** [Guide._get_coordinates] *)
Definition _get_coordinates (g : Graph) (node : waypoint)
  : result Coordinates :=
  match node with
  | WNode n => of_option KeyError (nodes g n)
  | _ => Err KeyError
  end.

(** [Guide._get_nearest_node] *)
Definition _get_nearest_node (g : Graph) (coords : Coordinates)
  : result OSMid :=
  nearest_edge <- nearest_edges g (snd coords) (fst coords) ;;
  let '(u, v, _) := nearest_edge in
  point_u <- of_option KeyError (nodes g u) ;;
  point_v <- of_option KeyError (nodes g v) ;;
  let du := haversine coords point_u KILOMETERS in
  let dv := haversine coords point_v KILOMETERS in
  Ok (if Qeq_bool du (py_min du dv) then u else v).

(** [Guide._compute_angle] *)
Definition _compute_angle (g : Graph) (src_node mid_node dst_node : waypoint)
  : result Q :=
  src_coords <- _get_coordinates g src_node ;;
  mid_coords <- _get_coordinates g mid_node ;;
  dst_coords <- _get_coordinates g dst_node ;;
  let angle1 := calculate_bearing (fst src_coords) (snd src_coords)
                                  (fst mid_coords) (snd mid_coords) in
  let angle2 := calculate_bearing (fst mid_coords) (snd mid_coords)
                                  (fst dst_coords) (snd dst_coords) in
  let angle := (angle2 - angle1)%Q in
  if Qltb (Qabs angle) 180 then Ok angle
  else Ok (if Qltb angle 0 then angle + 360 else angle - 360)%Q.

(** [Guide._compute_leg_of_the_route] *)
Definition _compute_leg_of_the_route (g : Graph) (src mid dst : waypoint)
  : result RouteLeg :=
  let leg := mkLeg src None None mid None dst None in
  match dst with
  | WNone =>
      if is_OSMid src then
        c <- _get_coordinates g src ;;
        Ok (set_src leg (WCoords c))
      else Ok leg
  | _ =>
      leg <- (if is_OSMid src then
                c <- _get_coordinates g src ;;
                e <- graph_edge g src mid ;;
                Ok (set_length
                      (set_current_name (set_src leg (WCoords c))
                                        (edge_name e))
                      (edge_length e))
              else Ok leg) ;;
      m <- _get_coordinates g mid ;;
      let leg := set_mid leg (WCoords m) in
      leg <- (if is_OSMid dst then
                d <- _get_coordinates g dst ;;
                e <- graph_edge g mid dst ;;
                Ok (set_next_name (set_dst leg (WCoords d)) (edge_name e))
              else Ok leg) ;;
      if is_OSMid src && is_OSMid dst then
        a <- _compute_angle g src mid dst ;;
        Ok (set_angle leg (Some a))
      else Ok leg
  end.

(** [Guide.get_directions], lines 112-118: the complete route. *)
Definition complete_route (src_coords : Coordinates) (route : list OSMid)
           (dst_coords : Coordinates) : list waypoint :=
  (WCoords src_coords :: map WNode route)
    ++ [WCoords dst_coords] ++ [WNone].

(** [Guide.get_directions], lines 122-127:
    [for i in range(len(route)-2)], [n] iterations from index [i]. *)
Fixpoint legs_loop (g : Graph) (route : list waypoint) (i n : nat)
  : result (list RouteLeg) :=
  match n with
  | O => Ok []
  | S n' =>
      src <- of_option IndexError (nth_error route i) ;;
      mid <- of_option IndexError (nth_error route (i + 1)) ;;
      dst <- of_option IndexError (nth_error route (i + 2)) ;;
      next_leg <- _compute_leg_of_the_route g src mid dst ;;
      directions <- legs_loop g route (S i) n' ;;
      Ok (next_leg :: directions)
  end.

Definition compute_legs (g : Graph) (route : list waypoint)
  : result (list RouteLeg) :=
  legs_loop g route 0 (List.length route - 2).

(** [Guide.get_directions], lines 129-151: the post-processing step on
    the legs as built.  [directions[-2]] is updated in place, then the
    last leg is popped. *)
Definition post_processing (directions : list RouteLeg)
  : result (list RouteLeg) :=
  if 3 <=? Z.of_nat (List.length directions) then
    penult_leg <- py_get directions (-2) ;;
    penult_dist <- py_haversine (leg_src penult_leg) (leg_dst penult_leg)
                                KILOMETERS ;;
    last_dist <- py_haversine (leg_mid penult_leg) (leg_dst penult_leg)
                              KILOMETERS ;;
    if Qltb last_dist penult_dist then
      let leg := set_mid penult_leg (leg_dst penult_leg) in
      let leg := set_dst leg WNone in
      len <- py_haversine (leg_src leg) (leg_mid leg) METERS ;;
      let leg := set_length leg (Some len) in
      directions <- py_set directions (-2) leg ;;
      py_pop directions
    else Ok directions
  else Ok directions.

(** [Guide.get_directions], lines 112-153: from the node path to the
    directions. *)
Definition build_legs (g : Graph) (src_coords : Coordinates)
           (route : list OSMid) (dst_coords : Coordinates)
  : result (list RouteLeg) :=
  directions <- compute_legs g (complete_route src_coords route dst_coords) ;;
  post_processing directions.

(** [Guide.get_directions] *)
Definition get_directions (g : Graph) (src_coords dst_coords : Coordinates)
  : result (list RouteLeg) :=
  src_node <- _get_nearest_node g src_coords ;;
  dst_node <- _get_nearest_node g dst_coords ;;
  route <- shortest_path g src_node dst_node ;;
  build_legs g src_coords route dst_coords.

End Guide.

(** ** main_bot.py *)

(** The instruction that ends a next-checkpoint message. *)
Inductive instruction : Type :=
| DestinationClose (distance : Z)
| GoStraight (current_street : string) (distance : Z)
             (turning_m : option string).

(** The content of the message of [_get_next_checkpoint_message]: the
    number of the checkpoint reached, the position, the number and the
    coordinates of the next checkpoint, the street name when there is one,
    and the instruction. *)
Record checkpoint_message : Type := mkMessage {
  msg_reached : Z;
  msg_you_are_at : waypoint;
  msg_next : Z;
  msg_coordinates : waypoint;
  msg_street_name : option string;
  msg_instruction : instruction
}.

(** What the bot sends to the user. *)
Inductive event : Type :=
| FirstLocationMessage
| Warning
| Photo (route_id : string) (current_leg : Z)
| FinalMessage (destination_name : string)
| NextCheckpointMessage (m : checkpoint_message)
| TurningMessage (turn_ : string)
| GpsProblemMessage.

(** [context.user_data]: a key that is absent is [None]. *)
Record user_data : Type := mkUserData {
  current_location : option Coordinates;
  directions : option (list RouteLeg);
  dst_name : option string;
  current_leg : option Z;
  route_id : option string
}.

(** [str.lower] on the ASCII letters. *)
Definition lower_ascii (c : Ascii.ascii) : Ascii.ascii :=
  let n := Ascii.nat_of_ascii c in
  if (65 <=? n)%nat && (n <=? 90)%nat then Ascii.ascii_of_nat (n + 32) else c.

Fixpoint lower (s : string) : string :=
  match s with
  | EmptyString => EmptyString
  | String c s' => String (lower_ascii c) (lower s')
  end.

(** [abs(angle)] and [angle < 0] raise on [None]. *)
Definition py_abs (angle : option Q) : result Q :=
  match angle with
  | Some a => Ok (Qabs a)
  | None => Err TypeError
  end.

Definition py_lt0 (angle : option Q) : result bool :=
  match angle with
  | Some a => Ok (Qltb a 0)
  | None => Err TypeError
  end.

Definition is_None {A : Type} (o : option A) : bool :=
  match o with
  | None => true
  | Some _ => false
  end.

(** [_round5] *)
Definition _round5 (n : Q) : Z :=
  let q := Qfloor (n / 5) in
  let n5 := q * 5 in
  if Qle_bool (n - inject_Z (5 * q)) 2 then n5 else n5 + 5.

(** [_get_turning_message] *)
Definition _get_turning_message (angle : option Q) : result string :=
  a <- py_abs angle ;;
  if Qltb a (45 # 2) || is_None angle then Ok "Go straight ahead ⬆️"%string
  else
    neg <- py_lt0 angle ;;
    let dir_ := (if neg then "left" else "right")%string in
    a <- py_abs angle ;;
    if Qltb a (135 # 2) then
      let sym_ := (if String.eqb dir_ "right" then "↗️" else "↖️")%string in
      Ok ("Half-turn to the " ++ dir_ ++ " " ++ sym_)%string
    else
      a <- py_abs angle ;;
      if Qltb a (225 # 2) then
        let sym_ := (if String.eqb dir_ "right" then "➡️" else "⬅️")%string in
        Ok ("Turn to the " ++ dir_ ++ " " ++ sym_)%string
      else
        let sym_ := (if String.eqb dir_ "right" then "↘️" else "↙️")%string in
        Ok ("Sharp turn to the " ++ dir_ ++ " " ++ sym_)%string.

Section Bot.

Variable haversine : Coordinates -> Coordinates -> Unit -> Q.

(** [_is_moving_away_from_the_route] *)
Definition _is_moving_away_from_the_route
           (current_coords last_coords checkpoint : waypoint) (margin : Q)
  : result bool :=
  last_distance <- py_haversine haversine last_coords checkpoint METERS ;;
  current_distance <- py_haversine haversine current_coords checkpoint METERS ;;
  Ok (Qltb (last_distance + margin) current_distance).

(** [_are_next_to_each_other] *)
Definition _are_next_to_each_other (p1 p2 : waypoint) (margin : Q)
  : result bool :=
  distance <- py_haversine haversine p1 p2 METERS ;;
  Ok (Qle_bool distance margin).

(** The default value of [margin] in both functions. *)
Definition default_margin : Q := 15.

(** [_get_next_checkpoint_message] *)
Definition _get_next_checkpoint_message (ud : user_data)
  : result checkpoint_message :=
  current_leg <- of_option KeyError (current_leg ud) ;;
  directions <- of_option KeyError (directions ud) ;;
  current_route_leg <- py_get directions current_leg ;;
  let src := leg_src current_route_leg in
  let mid := leg_mid current_route_leg in
  distance <- match leg_length current_route_leg with
              | Some d => Ok d
              | None => py_haversine haversine src mid METERS
              end ;;
  let distance := _round5 distance in
  let message := mkMessage current_leg src (current_leg + 1) mid
                           (leg_next_name current_route_leg) in
  match leg_dst current_route_leg with
  | WNone => Ok (message (DestinationClose distance))
  | _ =>
      let current_street :=
        match leg_current_name current_route_leg with
        | Some name => name
        | None => "the street"%string
        end in
      match leg_angle current_route_leg with
      | Some a =>
          if Qltb (45 # 2) (Qabs a) then
            turning_m <- _get_turning_message (Some a) ;;
            Ok (message (GoStraight current_street distance
                                    (Some (lower turning_m))))
          else Ok (message (GoStraight current_street distance None))
      | None => Ok (message (GoStraight current_street distance None))
      end
  end.

(** The handler runs on the user data and sends messages; an exception
    leaves both as they are at that point. *)
Record bot : Type := mkBot {
  data : user_data;
  sent : list event
}.

Definition Bot (A : Type) : Type := bot -> result A * bot.

Definition ret {A : Type} (a : A) : Bot A := fun b => (Ok a, b).

Definition bindB {A B : Type} (m : Bot A) (k : A -> Bot B) : Bot B :=
  fun b =>
    match m b with
    | (Ok a, b') => k a b'
    | (Err e, b') => (Err e, b')
    end.

Notation "x <~ m ;; k" := (bindB m (fun x => k))
  (at level 61, m at next level, right associativity).
Notation "m ;;; k" := (bindB m (fun _ => k))
  (at level 61, right associativity).

Definition lift {A : Type} (r : result A) : Bot A := fun b => (r, b).

Definition get_data : Bot user_data := fun b => (Ok (data b), b).

Definition put_data (ud : user_data) : Bot unit :=
  fun b => (Ok tt, mkBot ud (sent b)).

(** [context.bot.send_message] and [send_photo]: assumed to succeed. *)
Definition send (e : event) : Bot unit :=
  fun b => (Ok tt, mkBot (data b) (sent b ++ [e])).

(** [context.user_data[key]] *)
Definition get_key {A : Type} (key : user_data -> option A) : Bot A :=
  ud <~ get_data ;; lift (of_option KeyError (key ud)).

Definition set_current_location (c : option Coordinates) : Bot unit :=
  ud <~ get_data ;;
  put_data (mkUserData c (directions ud) (dst_name ud) (current_leg ud)
                       (route_id ud)).

Definition set_current_leg (i : option Z) : Bot unit :=
  ud <~ get_data ;;
  put_data (mkUserData (current_location ud) (directions ud) (dst_name ud)
                       i (route_id ud)).

(** [del context.user_data[key]], for the four keys of a route. *)
Definition del_directions : Bot unit :=
  _ <~ get_key directions ;;
  ud <~ get_data ;;
  put_data (mkUserData (current_location ud) None (dst_name ud)
                       (current_leg ud) (route_id ud)).

Definition del_dst_name : Bot unit :=
  _ <~ get_key dst_name ;;
  ud <~ get_data ;;
  put_data (mkUserData (current_location ud) (directions ud) None
                       (current_leg ud) (route_id ud)).

Definition del_current_leg : Bot unit :=
  _ <~ get_key current_leg ;;
  set_current_leg None.

Definition del_route_id : Bot unit :=
  _ <~ get_key route_id ;;
  ud <~ get_data ;;
  put_data (mkUserData (current_location ud) (directions ud) (dst_name ud)
                       (current_leg ud) None).

(** [GUIDE.plot_directions] followed by [send_photo]. *)
Definition plot_and_send (leg_id : Z) : Bot unit :=
  rid <~ get_key route_id ;;
  send (Photo rid leg_id).

(** [process_user_location], the body of the [try]. *)
Definition process_user_location_try (current_loc : Coordinates)
  : Bot unit :=
  ud <~ get_data ;;
  match current_location ud with
  | None =>
      (* the first location received from the user *)
      set_current_location (Some current_loc) ;;;
      send FirstLocationMessage
  | Some last_location =>
      set_current_location (Some current_loc) ;;;
      user_data <~ get_data ;;
      match directions user_data with
      | None => ret tt
      | Some directions =>
          i <~ get_key current_leg ;;
          leg <~ lift (py_get directions i) ;;
          let checkpoint := leg_mid leg in
          is_moving_away <~ lift (_is_moving_away_from_the_route
                                    (WCoords current_loc)
                                    (WCoords last_location)
                                    checkpoint default_margin) ;;
          if is_moving_away then send Warning
          else
            reached <~ lift (_are_next_to_each_other
                               (WCoords current_loc) checkpoint
                               default_margin) ;;
            if reached then
              if i + 1 =? Z.of_nat (List.length directions) then
                plot_and_send (i + 1) ;;;
                destination_name <~ get_key dst_name ;;
                send (FinalMessage destination_name) ;;;
                del_directions ;;;
                del_dst_name ;;;
                del_current_leg ;;;
                del_route_id
              else
                ud' <~ get_data ;;
                message <~ lift (_get_next_checkpoint_message ud') ;;
                send (NextCheckpointMessage message) ;;;
                leg_i <~ lift (py_get directions i) ;;
                match leg_angle leg_i with
                | Some a =>
                    turn_ <~ lift (_get_turning_message (Some a)) ;;
                    send (TurningMessage turn_)
                | None => ret tt
                end ;;;
                (* advance the step counter *)
                n <~ get_key current_leg ;;
                set_current_leg (Some (n + 1)) ;;;
                leg_id <~ get_key current_leg ;;
                plot_and_send leg_id
            else ret tt
      end
  end.

(** [process_user_location]: any exception sends the GPS message. *)
Definition process_user_location (current_loc : Coordinates) (b : bot)
  : bot :=
  match process_user_location_try current_loc b with
  | (Ok _, b') => b'
  | (Err _, b') => mkBot (data b') (sent b' ++ [GpsProblemMessage])
  end.

(** The handler on a stream of location updates. *)
Definition process_locations (locs : list Coordinates) (b : bot) : bot :=
  fold_left (fun b loc => process_user_location loc b) locs b.

End Bot.

(** ** Stand-ins for the external packages, and a small street graph

    The theorems hold for every distance and bearing function that
    satisfies the stated hypotheses.  The stand-ins below give them
    concrete inputs to run on. *)

(** A rational stand-in for [haversine]: the city-block distance at
    111 km per degree.  It is not negative and is zero from a point to
    itself, like the great-circle distance. *)
Definition grid_haversine (p1 p2 : Coordinates) (unit : Unit) : Q :=
  let d := (Qabs (fst p1 - fst p2) + Qabs (snd p1 - snd p2))%Q in
  match unit with
  | KILOMETERS => (111 * d)%Q
  | METERS => (111000 * d)%Q
  end.

(** A stand-in for [calculate_bearing], exact along a meridian (north is
    0, south is 180) and rounded to east (90) or west (270) elsewhere. *)
Definition axis_bearing (lat1 lon1 lat2 lon2 : Q) : Q :=
  if Qeq_bool lon1 lon2 then (if Qle_bool lat1 lat2 then 0 else 180)%Q
  else if Qltb lon1 lon2 then 90%Q else 270%Q.

(** Four nodes on two streets: 1, 2 and 3 go north along a meridian,
    111 m apart; 4 lies east of 3. *)
Definition street_nodes (n : OSMid) : option Coordinates :=
  match n with
  | 1 => Some (0, 0)%Q
  | 2 => Some (1 # 1000, 0)%Q
  | 3 => Some (2 # 1000, 0)%Q
  | 4 => Some (2 # 1000, 1 # 1000)%Q
  | _ => None
  end.

Definition street_adj (u v : OSMid) : option EdgeData :=
  match u, v with
  | 1, 2 | 2, 1 | 2, 3 | 3, 2 =>
      Some (mkEdge (Some "Carrer de Mallorca"%string) (Some 111%Q))
  | 3, 4 | 4, 3 => Some (mkEdge None None)
  | _, _ => None
  end.

Definition street_graph : Graph :=
  mkGraph street_nodes street_adj
          (fun _ _ => Ok (1, 2, 0))
          (fun s t => if s =? t then Ok [s]
                      else Err (ExternalError "NetworkXNoPath")).

(** A walk from just south of node 1 along nodes 1, 2, 3 to a point
    between nodes 2 and 3. *)
Definition walk_start : Coordinates := (- (1 # 4000), 0)%Q.
Definition walk_end : Coordinates := (3 # 2000, 0)%Q.
Definition walk_path : list OSMid := [1; 2; 3].

(** A drive along nodes 1, 2, 3, 4 to a point east of node 4, and its
    legs as built, before the post-processing step. *)
Definition drive_end : Coordinates := (2 # 1000, 2 # 1000)%Q.
Definition drive_path : list OSMid := [1; 2; 3; 4].

Definition drive_legs : list RouteLeg :=
  Eval vm_compute in
    match compute_legs axis_bearing street_graph
                       (complete_route walk_start drive_path drive_end) with
    | Ok legs => legs
    | Err _ => []
    end.

(** The legs of the drive before its last two legs, its penultimate leg
    and its last leg. *)
Definition drive_first_legs : list RouteLeg :=
  Eval vm_compute in firstn 3 drive_legs.

Definition drive_penult_leg : RouteLeg :=
  Eval vm_compute in
    nth 3 drive_legs (mkLeg WNone None None WNone None WNone None).

Definition drive_last_leg : RouteLeg :=
  Eval vm_compute in
    nth 4 drive_legs (mkLeg WNone None None WNone None WNone None).

(** The directions of the walk, and the user data of a user who has just
    been given them by the command [/go]: at the start, on leg 0. *)
Definition walk_directions : list RouteLeg :=
  Eval vm_compute in
    match build_legs grid_haversine axis_bearing street_graph
                     walk_start walk_path walk_end with
    | Ok legs => legs
    | Err _ => []
    end.

Definition walk_user_data : user_data :=
  mkUserData (Some walk_start) (Some walk_directions)
             (Some "Sagrada Familia"%string) (Some 0) (Some "101500"%string).

Definition walk_bot : bot := mkBot walk_user_data [].

(** A path is valid in a graph when its nodes are nodes of the graph and
    consecutive nodes are joined by an edge; [prev] is the node before
    the path, when there is one. *)
Definition is_Some {A : Type} (o : option A) : bool :=
  match o with
  | Some _ => true
  | None => false
  end.

Fixpoint chain_ok (g : Graph) (prev : option OSMid) (path : list OSMid)
  : bool :=
  match path with
  | [] => true
  | n :: rest =>
      is_Some (nodes g n)
      && match prev with
         | Some p => is_Some (adj g p n)
         | None => true
         end
      && chain_ok g (Some n) rest
  end.

Definition valid_path (g : Graph) (path : list OSMid) : Prop :=
  chain_ok g None path = true.

(** The legs of a route by a sliding window of three waypoints. *)
Fixpoint legs_window (calculate_bearing : Q -> Q -> Q -> Q -> Q) (g : Graph)
         (route : list waypoint) : result (list RouteLeg) :=
  match route with
  | src :: ((mid :: dst :: _) as rest) =>
      next_leg <- _compute_leg_of_the_route calculate_bearing g src mid dst ;;
      directions <- legs_window calculate_bearing g rest ;;
      Ok (next_leg :: directions)
  | _ => Ok []
  end.

(** The shape of the legs built on a valid path that ends at [e]: every
    leg starts and has its checkpoint at coordinates; the last leg has
    the checkpoint [e] and no forward point; the leg before the last has
    the forward point [e]. *)
Fixpoint legs_shape (e : Coordinates) (ds : list RouteLeg) : Prop :=
  match ds with
  | [] => False
  | l :: rest =>
      (exists a, leg_src l = WCoords a)
      /\ match rest with
         | [] => leg_mid l = WCoords e /\ leg_dst l = WNone
         | _ :: rest' =>
             (exists b, leg_mid l = WCoords b)
             /\ match rest' with
                | [] => leg_dst l = WCoords e
                | _ => exists c, leg_dst l = WCoords c
                end
             /\ legs_shape e rest
         end
  end.

(** The penultimate leg after the post-processing step has collapsed the
    last two legs. *)
Definition collapse (haversine : Coordinates -> Coordinates -> Unit -> Q)
           (p : RouteLeg) (from to : Coordinates) : RouteLeg :=
  mkLeg (leg_src p) (leg_current_name p) (Some (haversine from to METERS))
        (WCoords to) (leg_next_name p) WNone (leg_angle p).

(** The test of the post-processing step on the penultimate leg [p]. *)
Definition skips_last_node (haversine : Coordinates -> Coordinates -> Unit -> Q)
           (from checkpoint to : Coordinates) : bool :=
  Qltb (haversine checkpoint to KILOMETERS) (haversine from to KILOMETERS).

(** The source of a leg is usable when it is a coordinate or a node of
    the graph; [resolve] is the coordinate it stands for. *)
Definition src_ok (g : Graph) (w : waypoint) : Prop :=
  match w with
  | WCoords _ => True
  | WNode p => nodes g p <> None
  | WNone => False
  end.

Definition prev_of (w : waypoint) : option OSMid :=
  match w with
  | WNode p => Some p
  | _ => None
  end.

Definition resolve (g : Graph) (w : waypoint) : waypoint :=
  match w with
  | WNode p =>
      match nodes g p with
      | Some c => WCoords c
      | None => WNone
      end
  | _ => w
  end.

(** The two tests of the post-processing step (lines 132 and 142), on
    the legs as built. *)
Definition simplification_triggers
           (haversine : Coordinates -> Coordinates -> Unit -> Q)
           (directions : list RouteLeg) : bool :=
  (3 <=? Z.of_nat (List.length directions))
  && match py_get directions (-2) with
     | Ok penult_leg =>
         match py_haversine haversine (leg_src penult_leg)
                            (leg_dst penult_leg) KILOMETERS,
               py_haversine haversine (leg_mid penult_leg)
                            (leg_dst penult_leg) KILOMETERS with
         | Ok penult_dist, Ok last_dist => Qltb last_dist penult_dist
         | _, _ => false
         end
     | Err _ => false
     end.

(** * Properties *)

(** ** Comparisons *)

Lemma Qltb_lt (x y : Q) : Qltb x y = true <-> (x < y)%Q.
Proof.
  unfold Qltb. rewrite negb_true_iff.
  split; intro H.
  - apply Qnot_le_lt. intro Hle. apply Qle_bool_iff in Hle. congruence.
  - destruct (Qle_bool y x) eqn:E; [|reflexivity].
    apply Qle_bool_iff in E. exfalso. apply (Qlt_not_le _ _ H E).
Qed.

Lemma Qltb_ge (x y : Q) : Qltb x y = false <-> (y <= x)%Q.
Proof.
  unfold Qltb. rewrite negb_false_iff. apply Qle_bool_iff.
Qed.

Lemma Qltb_spec (x y : Q) : BoolSpec (x < y)%Q (y <= x)%Q (Qltb x y).
Proof.
  destruct (Qltb x y) eqn:E; constructor.
  - now apply Qltb_lt.
  - now apply Qltb_ge.
Qed.

Lemma Qabs_lt_iff (x b : Q) : (Qabs x < b <-> - b < x /\ x < b)%Q.
Proof.
  split.
  - intro H. destruct (Qlt_le_dec x 0) as [Hn|Hp].
    + rewrite Qabs_neg in H by lra. lra.
    + rewrite Qabs_pos in H by lra. lra.
  - intros [H1 H2]. destruct (Qlt_le_dec x 0) as [Hn|Hp].
    + rewrite Qabs_neg by lra. lra.
    + rewrite Qabs_pos by lra. lra.
Qed.

(** ** Nearest node *)

Section NearestNode.

Variable haversine : Coordinates -> Coordinates -> Unit -> Q.

(** C9.  The nearest node of a point is an endpoint of the nearest edge
    [(u, v)]: the one whose great-circle distance to the point is
    strictly smaller, and [u] when the two distances are equal. *)
Theorem nearest_node_is_closer_endpoint
        (g : Graph) (coords : Coordinates) (u v : OSMid) (key : Z)
        (point_u point_v : Coordinates) :
  nearest_edges g (snd coords) (fst coords) = Ok (u, v, key) ->
  nodes g u = Some point_u ->
  nodes g v = Some point_v ->
  let du := haversine coords point_u KILOMETERS in
  let dv := haversine coords point_v KILOMETERS in
  ((du < dv)%Q -> _get_nearest_node haversine g coords = Ok u)
  /\ ((dv < du)%Q -> _get_nearest_node haversine g coords = Ok v)
  /\ ((du == dv)%Q -> _get_nearest_node haversine g coords = Ok u).
Proof.
  intros Hedge Hu Hv du dv.
  unfold _get_nearest_node. rewrite Hedge. cbn.
  rewrite Hu, Hv. cbn. fold du dv. unfold py_min.
  destruct (Qltb_spec dv du) as [Hlt|Hge].
  - destruct (Qeq_bool du dv) eqn:E.
    + apply Qeq_bool_iff in E. repeat split; intro; try reflexivity; lra.
    + repeat split; intro; try reflexivity; lra.
  - rewrite (proj2 (Qeq_bool_iff du du) (Qeq_refl du)).
    repeat split; intro; try reflexivity; lra.
Qed.

End NearestNode.

(** ** Turn angle *)

Section TurnAngle.

Variable calculate_bearing : Q -> Q -> Q -> Q -> Q.

(** A compass bearing is at least 0 and less than 360 degrees. *)
Hypothesis bearing_range :
  forall lat1 lon1 lat2 lon2,
    (0 <= calculate_bearing lat1 lon1 lat2 lon2 < 360)%Q.

(** C2, as the code has it.  On three nodes of the graph the turn angle
    is computed and lies between -180 and 180, both included; it is
    greater than -180 unless the raw difference of the bearings is
    exactly 180. *)
Theorem compute_angle_range
        (g : Graph) (src_node mid_node dst_node : OSMid)
        (s m d : Coordinates) :
  nodes g src_node = Some s ->
  nodes g mid_node = Some m ->
  nodes g dst_node = Some d ->
  let raw := (calculate_bearing (fst m) (snd m) (fst d) (snd d)
              - calculate_bearing (fst s) (snd s) (fst m) (snd m))%Q in
  exists angle,
    _compute_angle calculate_bearing g
                   (WNode src_node) (WNode mid_node) (WNode dst_node)
    = Ok angle
    /\ (- (180) <= angle)%Q /\ (angle <= 180)%Q
    /\ (~ (raw == 180)%Q -> (- (180) < angle)%Q).
Proof.
  intros Hs Hm Hd raw.
  unfold _compute_angle, _get_coordinates.
  rewrite Hs, Hm, Hd. cbv beta iota delta [bind of_option]. fold raw.
  pose proof (bearing_range (fst m) (snd m) (fst d) (snd d)) as H2.
  pose proof (bearing_range (fst s) (snd s) (fst m) (snd m)) as H1.
  assert (Hraw : (- (360) < raw /\ raw < 360)%Q) by (unfold raw; lra).
  destruct (Qltb_spec (Qabs raw) 180) as [Hsmall|Hbig].
  - apply Qabs_lt_iff in Hsmall.
    exists raw. repeat split; try reflexivity; try lra.
  - assert (Hout : (raw <= - (180) \/ 180 <= raw)%Q).
    { destruct (Qlt_le_dec raw 0) as [Hn|Hp].
      - rewrite Qabs_neg in Hbig by lra. left. lra.
      - rewrite Qabs_pos in Hbig by lra. right. lra. }
    destruct (Qltb_spec raw 0) as [Hneg|Hpos].
    + exists (raw + 360)%Q. repeat split; try reflexivity; try lra.
    + exists (raw - 360)%Q. split; [reflexivity|].
      split; [lra|]. split; [lra|].
      intro Hne. destruct Hout as [Hout|Hout]; [lra|].
      destruct (Qlt_le_dec 180 raw) as [Hgt|Hle]; [lra|].
      exfalso. apply Hne. apply Qle_antisym; assumption.
Qed.

End TurnAngle.

Lemma axis_bearing_range (lat1 lon1 lat2 lon2 : Q) :
  (0 <= axis_bearing lat1 lon1 lat2 lon2 < 360)%Q.
Proof.
  unfold axis_bearing.
  destruct (Qeq_bool lon1 lon2); [destruct (Qle_bool lat1 lat2)|
                                  destruct (Qltb lon1 lon2)]; lra.
Qed.

(** C2, as stated, fails on a U-turn.  From node 1 north to node 2 and
    back to node 1 the bearings are 0 and 180, the raw angle is 180, and
    the result is -180, which is not greater than -180. *)
Lemma compute_angle_u_turn :
  (forall lat1 lon1 lat2 lon2,
      (0 <= axis_bearing lat1 lon1 lat2 lon2 < 360)%Q)
  /\ _compute_angle axis_bearing street_graph (WNode 1) (WNode 2) (WNode 1)
     = Ok (- (180))%Q
  /\ ~ (- (180) < - (180))%Q.
Proof.
  split; [exact axis_bearing_range|].
  split; [vm_compute; reflexivity|].
  intro H. vm_compute in H. discriminate H.
Qed.

Lemma compute_angle_range_witness :
  exists angle,
    _compute_angle axis_bearing street_graph (WNode 1) (WNode 2) (WNode 3)
    = Ok angle
    /\ (- (180) <= angle)%Q /\ (angle <= 180)%Q
    /\ (~ (axis_bearing (1 # 1000) 0 (2 # 1000) 0
           - axis_bearing 0 0 (1 # 1000) 0 == 180)%Q
        -> (- (180) < angle)%Q).
Proof.
  exact (compute_angle_range axis_bearing axis_bearing_range street_graph
           1 2 3 (0, 0)%Q (1 # 1000, 0)%Q (2 # 1000, 0)%Q
           eq_refl eq_refl eq_refl).
Defined.

(** ** Turning message *)

(** C3, on the code.  For an absent angle [abs(angle)] is evaluated
    before [angle is None] and raises: no message is returned. *)
Theorem turning_message_of_None_raises :
  _get_turning_message None = Err TypeError.
Proof. reflexivity. Qed.

(** For a present angle the categories are those of the docstring. *)
Lemma turning_message_of_angle (a : Q) :
  ((Qabs a < 45 # 2)%Q ->
   _get_turning_message (Some a) = Ok "Go straight ahead ⬆️"%string)
  /\ ((45 # 2 <= Qabs a)%Q -> (Qabs a < 135 # 2)%Q ->
      _get_turning_message (Some a)
      = Ok (if Qltb a 0 then "Half-turn to the left ↖️"
            else "Half-turn to the right ↗️")%string)
  /\ ((135 # 2 <= Qabs a)%Q -> (Qabs a < 225 # 2)%Q ->
      _get_turning_message (Some a)
      = Ok (if Qltb a 0 then "Turn to the left ⬅️"
            else "Turn to the right ➡️")%string)
  /\ ((225 # 2 <= Qabs a)%Q ->
      _get_turning_message (Some a)
      = Ok (if Qltb a 0 then "Sharp turn to the left ↙️"
            else "Sharp turn to the right ↘️")%string).
Proof.
  unfold _get_turning_message, py_abs, py_lt0, is_None.
  cbv beta iota delta [bind]. rewrite orb_false_r.
  destruct (Qltb_spec (Qabs a) (45 # 2)) as [H1|H1];
    destruct (Qltb_spec (Qabs a) (135 # 2)) as [H2|H2];
    destruct (Qltb_spec (Qabs a) (225 # 2)) as [H3|H3];
    repeat split; intros; try lra; try reflexivity;
    destruct (Qltb a 0); reflexivity.
Qed.

(** The examples of the docstring of [_round5]. *)
Example round5_docstring :
  _round5 756 = 755 /\ _round5 758 = 760
  /\ _round5 802 = 800 /\ _round5 803 = 805.
Proof. repeat split. Qed.

(** ** Moving away and arriving *)

Section Margin.

Variable haversine : Coordinates -> Coordinates -> Unit -> Q.

(** A great-circle distance is not negative. *)
Hypothesis haversine_nonneg :
  forall p1 p2 unit, (0 <= haversine p1 p2 unit)%Q.

Lemma moving_away_excludes_arrival_aux (c l k : Coordinates) :
  _is_moving_away_from_the_route haversine (WCoords c) (WCoords l)
                                 (WCoords k) default_margin = Ok true ->
  _are_next_to_each_other haversine (WCoords c) (WCoords k)
                          default_margin = Ok true ->
  False.
Proof.
  unfold _is_moving_away_from_the_route, _are_next_to_each_other,
    py_haversine, default_margin.
  cbv beta iota delta [bind]. intros Haway Hnext.
  injection Haway as Haway. injection Hnext as Hnext.
  apply Qltb_lt in Haway. apply Qle_bool_iff in Hnext.
  pose proof (haversine_nonneg l k METERS). lra.
Qed.

(** C10.  With the same margin in both tests, no update is both moving
    away from the checkpoint and next to it; so an update that is next
    to the checkpoint passes the moving-away test of the handler. *)
Theorem moving_away_excludes_arrival
        (current_coords last_coords checkpoint : waypoint) :
  ~ (_is_moving_away_from_the_route haversine current_coords last_coords
                                    checkpoint default_margin = Ok true
     /\ _are_next_to_each_other haversine current_coords checkpoint
                                default_margin = Ok true).
Proof.
  unfold _is_moving_away_from_the_route, _are_next_to_each_other,
    py_haversine, default_margin.
  intros [Haway Hnext].
  destruct current_coords as [c| |]; destruct last_coords as [l| |];
    destruct checkpoint as [k| |];
    cbv beta iota delta [bind] in Haway, Hnext; try discriminate.
  exact (moving_away_excludes_arrival_aux c l k Haway Hnext).
Qed.

(** An update next to the checkpoint passes the moving-away test that the
    handler makes first, whatever the last location was. *)
Lemma arrival_is_not_moving_away (current_loc last_location k : Coordinates) :
  _are_next_to_each_other haversine (WCoords current_loc) (WCoords k)
                          default_margin = Ok true ->
  _is_moving_away_from_the_route haversine (WCoords current_loc)
                                 (WCoords last_location) (WCoords k)
                                 default_margin = Ok false.
Proof.
  intro Hnext.
  destruct (_is_moving_away_from_the_route haversine (WCoords current_loc)
              (WCoords last_location) (WCoords k) default_margin)
    as [[|]|e] eqn:E.
  - exfalso. exact (moving_away_excludes_arrival_aux _ _ _ E Hnext).
  - reflexivity.
  - discriminate E.
Qed.

End Margin.

Lemma grid_haversine_nonneg (p1 p2 : Coordinates) (unit : Unit) :
  (0 <= grid_haversine p1 p2 unit)%Q.
Proof.
  unfold grid_haversine.
  pose proof (Qabs_nonneg (fst p1 - fst p2)).
  pose proof (Qabs_nonneg (snd p1 - snd p2)).
  destruct unit; lra.
Qed.

Lemma moving_away_excludes_arrival_witness :
  ~ (_is_moving_away_from_the_route grid_haversine
       (WCoords (1 # 1000, 0)%Q) (WCoords (0, 0)%Q)
       (WCoords (1 # 1000, 0)%Q) default_margin = Ok true
     /\ _are_next_to_each_other grid_haversine
          (WCoords (1 # 1000, 0)%Q) (WCoords (1 # 1000, 0)%Q)
          default_margin = Ok true).
Proof.
  exact (moving_away_excludes_arrival grid_haversine grid_haversine_nonneg
           (WCoords (1 # 1000, 0)%Q) (WCoords (0, 0)%Q)
           (WCoords (1 # 1000, 0)%Q)).
Defined.

(** ** Python lists *)

Lemma py_get_penult {A : Type} (pre : list A) (p l : A) :
  py_get (pre ++ [p; l]) (-2) = Ok p.
Proof.
  unfold py_get. rewrite length_app. cbn [List.length].
  replace (0 <=? -2) with false by reflexivity. cbn [andb].
  destruct (Z.leb_spec (- Z.of_nat (List.length pre + 2)) (-2)); [|lia].
  cbn [andb Z.ltb Z.compare].
  replace (Z.to_nat (Z.of_nat (List.length pre + 2) + -2))
    with (List.length pre) by lia.
  rewrite nth_error_app2 by lia. rewrite Nat.sub_diag. reflexivity.
Qed.

Lemma set_nth_app {A : Type} (pre : list A) (p x : A) (tl : list A) :
  set_nth (pre ++ p :: tl) (List.length pre) x = pre ++ x :: tl.
Proof.
  induction pre as [|a pre IH]; cbn; [reflexivity|]. now rewrite IH.
Qed.

Lemma py_set_penult {A : Type} (pre : list A) (p l x : A) :
  py_set (pre ++ [p; l]) (-2) x = Ok (pre ++ [x; l]).
Proof.
  unfold py_set. rewrite length_app. cbn [List.length].
  replace (0 <=? -2) with false by reflexivity. cbn [andb].
  destruct (Z.leb_spec (- Z.of_nat (List.length pre + 2)) (-2)); [|lia].
  cbn [andb Z.ltb Z.compare].
  replace (Z.to_nat (Z.of_nat (List.length pre + 2) + -2))
    with (List.length pre) by lia.
  now rewrite set_nth_app.
Qed.

Lemma py_pop_snoc {A : Type} (l : list A) (x : A) :
  py_pop (l ++ [x]) = Ok l.
Proof.
  unfold py_pop. rewrite removelast_last.
  destruct l; reflexivity.
Qed.

(** ** Building the legs *)

Section Legs.

Variable haversine : Coordinates -> Coordinates -> Unit -> Q.
Variable calculate_bearing : Q -> Q -> Q -> Q -> Q.

Lemma src_ok_resolve (g : Graph) (w : waypoint) :
  src_ok g w -> exists c, resolve g w = WCoords c.
Proof.
  destruct w as [c|p|]; cbn; intro H.
  - now exists c.
  - destruct (nodes g p) as [c|]; [now exists c|congruence].
  - contradiction.
Qed.

(** The loop over the indices is the sliding window. *)
Lemma legs_loop_shift (g : Graph) (x : waypoint) (route : list waypoint)
      (n i : nat) :
  legs_loop calculate_bearing g (x :: route) (S i) n
  = legs_loop calculate_bearing g route i n.
Proof.
  revert i. induction n as [|n IH]; intro i; cbn [legs_loop];
    [reflexivity|].
  cbn [Nat.add nth_error]. now rewrite IH.
Qed.

Lemma compute_legs_window (g : Graph) (route : list waypoint) :
  compute_legs calculate_bearing g route
  = legs_window calculate_bearing g route.
Proof.
  unfold compute_legs.
  induction route as [|a route IH]; [reflexivity|].
  destruct route as [|b route]; [reflexivity|].
  destruct route as [|c route]; [reflexivity|].
  cbn [List.length Nat.sub legs_loop nth_error Nat.add of_option bind
       legs_window].
  rewrite legs_loop_shift.
  cbn [List.length Nat.sub] in IH. rewrite Nat.sub_0_r in IH.
  now rewrite IH.
Qed.

Ltac leg_step :=
  cbv beta iota delta
      [is_OSMid andb _get_coordinates graph_edge bind of_option].

(** The terminal leg. *)
Lemma compute_leg_terminal (g : Graph) (src mid : waypoint) :
  src_ok g src ->
  _compute_leg_of_the_route calculate_bearing g src mid WNone
  = Ok (mkLeg (resolve g src) None None mid None WNone None).
Proof.
  unfold _compute_leg_of_the_route.
  destruct src as [c|p|]; cbn; intro H; [reflexivity| |contradiction].
  destruct (nodes g p); [reflexivity|congruence].
Qed.

(** A leg whose checkpoint is the node [n] and whose forward point is
    a node joined to [n], or a coordinate. *)
Lemma compute_leg_inner (g : Graph) (src dst : waypoint) (n : OSMid) :
  src_ok g src ->
  nodes g n <> None ->
  match src with
  | WNode p => adj g p n <> None
  | _ => True
  end ->
  match dst with
  | WNode m => nodes g m <> None /\ adj g n m <> None
  | WCoords _ => True
  | WNone => False
  end ->
  exists leg,
    _compute_leg_of_the_route calculate_bearing g src (WNode n) dst = Ok leg
    /\ leg_src leg = resolve g src
    /\ leg_mid leg = resolve g (WNode n)
    /\ leg_dst leg = resolve g dst.
Proof.
  intros Hsrc Hn Hedge Hdst.
  unfold _compute_leg_of_the_route, _compute_angle.
  destruct (nodes g n) as [cn|] eqn:En; [clear Hn|congruence].
  destruct src as [cs|p|]; [| |contradiction];
    destruct dst as [cd|m|]; try contradiction;
    cbn in Hsrc, Hedge, Hdst; leg_step.
  - rewrite En. leg_step. eexists; repeat split.
    cbn. now rewrite En.
  - destruct Hdst as [Hm Hnm]. rewrite En.
    destruct (nodes g m) as [cm|] eqn:Em; [|congruence].
    destruct (adj g n m) as [e2|]; [|congruence].
    leg_step. eexists; repeat split; cbn; now rewrite ?En, ?Em.
  - destruct (nodes g p) as [cp|] eqn:Ep; [|congruence].
    destruct (adj g p n) as [e1|]; [|congruence].
    rewrite En. leg_step. eexists; repeat split; cbn; now rewrite ?En, ?Ep.
  - destruct Hdst as [Hm Hnm].
    destruct (nodes g p) as [cp|] eqn:Ep; [|congruence].
    destruct (adj g p n) as [e1|]; [|congruence].
    rewrite En.
    destruct (nodes g m) as [cm|] eqn:Em; [|congruence].
    destruct (adj g n m) as [e2|]; [|congruence].
    leg_step.
    match goal with
    | |- context [Qltb (Qabs ?r) 180] => destruct (Qltb (Qabs r) 180)
    end; leg_step; eexists; repeat split; cbn [resolve];
      now rewrite ?En, ?Ep, ?Em.
Qed.

Lemma legs_window_step (g : Graph) (a b c : waypoint)
      (tl : list waypoint) :
  legs_window calculate_bearing g (a :: b :: c :: tl)
  = (next_leg <- _compute_leg_of_the_route calculate_bearing g a b c ;;
     directions <- legs_window calculate_bearing g (b :: c :: tl) ;;
     Ok (next_leg :: directions)).
Proof. reflexivity. Qed.

(** On a valid path the window builds one leg per node and the terminal
    leg, of the expected shape, and the first leg starts where the route
    starts. *)
Lemma legs_window_valid (g : Graph) (e : Coordinates)
      (path : list OSMid) :
  forall w0,
    src_ok g w0 ->
    chain_ok g (prev_of w0) path = true ->
    exists ds,
      legs_window calculate_bearing g
                  (w0 :: map WNode path ++ [WCoords e; WNone]) = Ok ds
      /\ List.length ds = S (List.length path)
      /\ legs_shape e ds
      /\ exists l tl, ds = l :: tl /\ leg_src l = resolve g w0.
Proof.
  induction path as [|n rest IH]; intros w0 Hw0 Hchain.
  - cbn [map app]. rewrite legs_window_step.
    rewrite (compute_leg_terminal g w0 (WCoords e) Hw0).
    cbn [legs_window bind]. eexists. split; [reflexivity|].
    split; [reflexivity|]. split.
    + cbn. split; [now apply src_ok_resolve|now split].
    + eexists _, _. split; reflexivity.
  - cbn [chain_ok] in Hchain.
    apply andb_true_iff in Hchain. destruct Hchain as [Hchain Hrest].
    apply andb_true_iff in Hchain. destruct Hchain as [Hn Hprev].
    assert (Hn' : nodes g n <> None)
      by (destruct (nodes g n); [congruence|discriminate]).
    destruct (IH (WNode n) Hn' Hrest)
      as (ds' & Hds' & Hlen & Hshape & l' & tl' & Ehd & Hsrc').
    assert (Hedge : match w0 with
                    | WNode p => adj g p n <> None
                    | _ => True
                    end).
    { destruct w0 as [c|p|]; cbn in *; try exact I.
      destruct (adj g p n); [congruence|discriminate]. }
    destruct rest as [|m rest'].
    + cbn [map app] in *.
      destruct (compute_leg_inner g w0 (WCoords e) n Hw0 Hn' Hedge I)
        as (leg & Hleg & Hs & Hm & Hd).
      rewrite legs_window_step, Hleg, Hds'. cbn [bind].
      eexists. split; [reflexivity|].
      split; [cbn; now rewrite Hlen|]. split.
      * subst ds'. destruct tl'; [|cbn in Hlen; lia].
        cbn [legs_shape] in *. split; [rewrite Hs; now apply src_ok_resolve|].
        split; [rewrite Hm; now apply (src_ok_resolve g (WNode n))|].
        split; [exact Hd|exact Hshape].
      * eexists _, _. split; [reflexivity|exact Hs].
    + cbn [map app] in *.
      cbn [chain_ok] in Hrest.
      apply andb_true_iff in Hrest. destruct Hrest as [Hrest _].
      apply andb_true_iff in Hrest. destruct Hrest as [Hm1 Hm2].
      assert (Hdst : nodes g m <> None /\ adj g n m <> None).
      { split; [destruct (nodes g m)|destruct (adj g n m)];
          congruence || discriminate. }
      destruct (compute_leg_inner g w0 (WNode m) n Hw0 Hn' Hedge Hdst)
        as (leg & Hleg & Hs & Hm & Hd).
      rewrite legs_window_step, Hleg, Hds'. cbn [bind].
      eexists. split; [reflexivity|].
      split; [cbn; now rewrite Hlen|]. split.
      * subst ds'. destruct tl' as [|l2 tl']; [cbn in Hlen; lia|].
        cbn [legs_shape] in *.
        split; [rewrite Hs; now apply src_ok_resolve|].
        split; [rewrite Hm; now apply (src_ok_resolve g (WNode n))|].
        split; [|exact Hshape].
        rewrite Hd. apply (src_ok_resolve g (WNode m)). exact (proj1 Hdst).
      * eexists _, _. split; [reflexivity|exact Hs].
Qed.

(** The last two legs of a route of at least two legs. *)
Lemma legs_shape_last_two (e : Coordinates) (ds : list RouteLeg) :
  legs_shape e ds ->
  (2 <= List.length ds)%nat ->
  exists pre P L a b,
    ds = pre ++ [P; L]
    /\ leg_src P = WCoords a /\ leg_mid P = WCoords b
    /\ leg_dst P = WCoords e /\ leg_mid L = WCoords e.
Proof.
  induction ds as [|l ds IH]; [intros []|].
  destruct ds as [|l2 ds]; [cbn; lia|].
  destruct ds as [|l3 ds].
  - cbn. intros ([a Ha] & [b Hb] & Hd & _ & Hm & _) _.
    now exists [], l, l2, a, b.
  - intros (_ & _ & _ & Hshape) _.
    destruct (IH Hshape) as (pre & P & L & a & b & E & H); [cbn; lia|].
    exists (l :: pre), P, L, a, b. split; [now rewrite E|exact H].
Qed.

(** The post-processing step on a list whose penultimate leg [P] goes
    from [a] past [b] towards [c]. *)
Lemma post_processing_penult (pre : list RouteLeg) (P L : RouteLeg)
      (a b c : Coordinates) :
  leg_src P = WCoords a -> leg_mid P = WCoords b ->
  leg_dst P = WCoords c ->
  simplification_triggers haversine (pre ++ [P; L])
  = (3 <=? Z.of_nat (List.length (pre ++ [P; L])))
    && skips_last_node haversine a b c
  /\ post_processing haversine (pre ++ [P; L])
     = Ok (if simplification_triggers haversine (pre ++ [P; L])
           then pre ++ [collapse haversine P a c]
           else pre ++ [P; L]).
Proof.
  intros Hs Hm Hd.
  unfold simplification_triggers, post_processing.
  rewrite py_get_penult.
  cbv beta iota delta [py_haversine bind].
  cbn [set_mid set_dst set_length leg_src leg_mid leg_dst leg_length
       leg_current_name leg_next_name leg_angle].
  rewrite Hs, Hm, Hd.
  fold (skips_last_node haversine a b c).
  split; [reflexivity|].
  destruct (3 <=? Z.of_nat (List.length (pre ++ [P; L])));
    [|reflexivity].
  cbn [andb].
  destruct (skips_last_node haversine a b c); [|reflexivity].
  rewrite py_set_penult.
  change (pre ++ [?x; L]) with (pre ++ [x] ++ [L]).
  rewrite app_assoc, py_pop_snoc. reflexivity.
Qed.

(** The legs of a valid, non-empty path and what the post-processing
    step makes of them. *)
Lemma build_legs_valid (g : Graph) (s e : Coordinates)
      (path : list OSMid) :
  path <> [] ->
  valid_path g path ->
  exists legs first tl pre P L a b,
    compute_legs calculate_bearing g (complete_route s path e) = Ok legs
    /\ List.length legs = S (List.length path)
    /\ legs = first :: tl /\ leg_src first = WCoords s
    /\ legs = pre ++ [P; L]
    /\ leg_src P = WCoords a /\ leg_mid P = WCoords b
    /\ leg_dst P = WCoords e /\ leg_mid L = WCoords e
    /\ build_legs haversine calculate_bearing g s path e
       = Ok (if simplification_triggers haversine legs
             then pre ++ [collapse haversine P a e]
             else legs).
Proof.
  intros Hne Hvalid.
  destruct (legs_window_valid g e path (WCoords s) I Hvalid)
    as (legs & Hlegs & Hlen & Hshape & first & tl & Ehd & Hfirst).
  assert (Hlen2 : (2 <= List.length legs)%nat).
  { rewrite Hlen. destruct path; [congruence|cbn; lia]. }
  destruct (legs_shape_last_two e legs Hshape Hlen2)
    as (pre & P & L & a & b & Elast & Hs & Hm & Hd & HL).
  exists legs, first, tl, pre, P, L, a, b.
  assert (Hcompute : compute_legs calculate_bearing g
                                  (complete_route s path e) = Ok legs).
  { rewrite compute_legs_window. exact Hlegs. }
  repeat (split; [assumption|]).
  unfold build_legs. rewrite Hcompute. cbv beta iota delta [bind].
  rewrite Elast.
  exact (proj2 (post_processing_penult pre P L a b e Hs Hm Hd)).
Qed.

(** C4.  On a valid, non-empty path the legs are built, one per node of
    the path and one more; the directions have as many legs when the
    post-processing step does not trigger, and one less when it does. *)
Theorem leg_count (g : Graph) (s e : Coordinates) (path : list OSMid) :
  path <> [] ->
  valid_path g path ->
  exists legs directions,
    compute_legs calculate_bearing g (complete_route s path e) = Ok legs
    /\ build_legs haversine calculate_bearing g s path e = Ok directions
    /\ List.length legs = (List.length path + 1)%nat
    /\ (simplification_triggers haversine legs = false ->
        List.length directions = (List.length path + 1)%nat)
    /\ (simplification_triggers haversine legs = true ->
        List.length directions = List.length path).
Proof.
  intros Hne Hvalid.
  destruct (build_legs_valid g s e path Hne Hvalid)
    as (legs & first & tl & pre & P & L & a & b & Hlegs & Hlen & _ & _
        & Elast & _ & _ & _ & _ & Hbuild).
  exists legs. eexists. split; [exact Hlegs|]. split; [exact Hbuild|].
  split; [lia|]. split; intro Htrig; rewrite Htrig.
  - lia.
  - rewrite Elast in Hlen. rewrite !length_app in *. cbn in *. lia.
Qed.

(** C5.  The post-processing step leaves a list of fewer than three legs
    as it is.  On at least three legs whose penultimate leg [P] goes
    from [a] past the checkpoint [b] towards [c], it compares
    [dP = distance(a, c)] with [dL = distance(b, c)]: when [dP > dL] the
    last two legs become the single leg [collapse P a c] (checkpoint [c],
    no forward point, length the distance from [a] to [c] in metres);
    otherwise the list is unchanged. *)
Theorem last_mile_simplification (directions : list RouteLeg) :
  ((List.length directions < 3)%nat ->
   post_processing haversine directions = Ok directions)
  /\ forall pre P L a b c,
      directions = pre ++ [P; L] ->
      (3 <= List.length directions)%nat ->
      leg_src P = WCoords a -> leg_mid P = WCoords b ->
      leg_dst P = WCoords c ->
      let dP := haversine a c KILOMETERS in
      let dL := haversine b c KILOMETERS in
      ((dL < dP)%Q ->
       post_processing haversine directions
       = Ok (pre ++ [collapse haversine P a c]))
      /\ (~ (dL < dP)%Q ->
          post_processing haversine directions = Ok directions).
Proof.
  split.
  - intro Hlt. unfold post_processing.
    destruct (Z.leb_spec 3 (Z.of_nat (List.length directions)));
      [lia|reflexivity].
  - intros pre P L a b c E Hlen Hs Hm Hd dP dL.
    destruct (post_processing_penult pre P L a b c Hs Hm Hd)
      as [Htrig Hpost].
    rewrite <- E in Htrig, Hpost.
    assert (H3 : (3 <=? Z.of_nat (List.length directions)) = true)
      by (apply Z.leb_le; lia).
    rewrite H3 in Htrig. cbn [andb] in Htrig.
    unfold skips_last_node in Htrig. fold dP dL in Htrig.
    rewrite Hpost, Htrig.
    destruct (Qltb_spec dL dP) as [Hlt|Hge]; split; intro H;
      try reflexivity; try (now rewrite E); lra.
Qed.

(** C6.  On a valid, non-empty path the first leg starts at the raw
    start coordinate and the last leg has the raw end coordinate as its
    checkpoint, both in the legs as built and in the directions
    returned after the post-processing step. *)
Theorem route_endpoints (g : Graph) (s e : Coordinates)
        (path : list OSMid) :
  path <> [] ->
  valid_path g path ->
  exists legs directions,
    compute_legs calculate_bearing g (complete_route s path e) = Ok legs
    /\ build_legs haversine calculate_bearing g s path e = Ok directions
    /\ (exists first tl last_leg pre,
           legs = first :: tl /\ leg_src first = WCoords s
           /\ legs = pre ++ [last_leg] /\ leg_mid last_leg = WCoords e)
    /\ (exists first tl last_leg pre,
           directions = first :: tl /\ leg_src first = WCoords s
           /\ directions = pre ++ [last_leg]
           /\ leg_mid last_leg = WCoords e).
Proof.
  intros Hne Hvalid.
  destruct (build_legs_valid g s e path Hne Hvalid)
    as (legs & first & tl & pre & P & L & a & b & Hlegs & Hlen & Ehd
        & Hfirst & Elast & Hs & Hm & Hd & HL & Hbuild).
  assert (Hbuilt : exists first tl last_leg pre,
             legs = first :: tl /\ leg_src first = WCoords s
             /\ legs = pre ++ [last_leg] /\ leg_mid last_leg = WCoords e).
  { exists first, tl, L, (pre ++ [P]).
    repeat (split; [assumption|]). split; [|exact HL].
    rewrite Elast, <- app_assoc. reflexivity. }
  exists legs. eexists. split; [exact Hlegs|]. split; [exact Hbuild|].
  split; [exact Hbuilt|].
  destruct (simplification_triggers haversine legs) eqn:Htrig;
    [|exact Hbuilt].
  destruct pre as [|f pre'].
  - exfalso. rewrite Elast in Htrig. unfold simplification_triggers in Htrig.
    cbn in Htrig. discriminate.
  - assert (f = first) by (rewrite Elast in Ehd; now inversion Ehd).
    subst f.
    exists first, (pre' ++ [collapse haversine P a e]),
      (collapse haversine P a e), (first :: pre').
    repeat split; assumption.
Qed.

(** C8, as the code has it.  On an empty path the legs are built: the
    directions are the single terminal leg from the start coordinate to
    the end coordinate. *)
Theorem build_legs_empty_path (g : Graph) (s e : Coordinates) :
  build_legs haversine calculate_bearing g s [] e
  = Ok [mkLeg (WCoords s) None None (WCoords e) None WNone None].
Proof. reflexivity. Qed.

End Legs.

(** ** The theorems on the street graph *)

Lemma nearest_node_is_closer_endpoint_witness :
  let du := grid_haversine (1 # 4000, 0)%Q (0, 0)%Q KILOMETERS in
  let dv := grid_haversine (1 # 4000, 0)%Q (1 # 1000, 0)%Q KILOMETERS in
  ((du < dv)%Q ->
   _get_nearest_node grid_haversine street_graph (1 # 4000, 0)%Q = Ok 1)
  /\ ((dv < du)%Q ->
      _get_nearest_node grid_haversine street_graph (1 # 4000, 0)%Q = Ok 2)
  /\ ((du == dv)%Q ->
      _get_nearest_node grid_haversine street_graph (1 # 4000, 0)%Q = Ok 1).
Proof.
  exact (nearest_node_is_closer_endpoint grid_haversine street_graph
           (1 # 4000, 0)%Q 1 2 0 (0, 0)%Q (1 # 1000, 0)%Q
           eq_refl eq_refl eq_refl).
Defined.

Lemma leg_count_witness :
  exists legs directions,
    compute_legs axis_bearing street_graph
                 (complete_route walk_start walk_path walk_end) = Ok legs
    /\ build_legs grid_haversine axis_bearing street_graph
                  walk_start walk_path walk_end = Ok directions
    /\ List.length legs = (List.length walk_path + 1)%nat
    /\ (simplification_triggers grid_haversine legs = false ->
        List.length directions = (List.length walk_path + 1)%nat)
    /\ (simplification_triggers grid_haversine legs = true ->
        List.length directions = List.length walk_path).
Proof.
  apply (leg_count grid_haversine axis_bearing street_graph
                   walk_start walk_end walk_path).
  - discriminate.
  - reflexivity.
Defined.

Lemma route_endpoints_witness :
  exists legs directions,
    compute_legs axis_bearing street_graph
                 (complete_route walk_start walk_path walk_end) = Ok legs
    /\ build_legs grid_haversine axis_bearing street_graph
                  walk_start walk_path walk_end = Ok directions
    /\ (exists first tl last_leg pre,
           legs = first :: tl /\ leg_src first = WCoords walk_start
           /\ legs = pre ++ [last_leg] /\ leg_mid last_leg = WCoords walk_end)
    /\ (exists first tl last_leg pre,
           directions = first :: tl /\ leg_src first = WCoords walk_start
           /\ directions = pre ++ [last_leg]
           /\ leg_mid last_leg = WCoords walk_end).
Proof.
  apply (route_endpoints grid_haversine axis_bearing street_graph
                         walk_start walk_end walk_path).
  - discriminate.
  - reflexivity.
Defined.

(** C8, as stated, fails: on the empty path the legs are built. *)
Lemma build_legs_empty_path_returns :
  exists directions,
    build_legs grid_haversine axis_bearing street_graph
               walk_start [] walk_end = Ok directions
    /\ List.length directions = 1%nat.
Proof.
  eexists. split; reflexivity.
Qed.

(** ** The location handler *)

Ltac bot_unfold :=
  cbv beta iota delta
      [process_user_location process_user_location_try bindB get_data put_data
       send get_key set_current_location set_current_leg del_directions
       del_dst_name del_current_leg del_route_id plot_and_send lift ret
       of_option data sent current_location directions dst_name current_leg
       route_id].

Ltac bot_case :=
  match goal with
  | |- context [match ?x with _ => _ end] =>
      lazymatch x with
      | context [match _ with _ => _ end] => fail
      | _ => destruct x eqn:?
      end
  | |- context [if ?x then _ else _] =>
      lazymatch x with
      | context [match _ with _ => _ end] => fail
      | _ => destruct x eqn:?
      end
  end.

Ltac bot_cases :=
  repeat (bot_case; bot_unfold; cbn [fst snd] in * ).

Section Handler.

Variable haversine : Coordinates -> Coordinates -> Unit -> Q.

Local Abbreviation step := (process_user_location haversine).
Local Abbreviation run := (process_locations haversine).

(** One call keeps the step counter, advances it by one, or removes it
    with the finished route. *)
Lemma step_current_leg (loc : Coordinates) (b : bot) :
  current_leg (data (step loc b)) = current_leg (data b)
  \/ current_leg (data (step loc b)) = None
  \/ exists i, current_leg (data b) = Some i
               /\ current_leg (data (step loc b)) = Some (i + 1).
Proof.
  destruct b as [[cl ds dn i rid] out].
  bot_unfold. bot_cases.
  all: cbn; auto.
  all: right; right; eexists; split; reflexivity.
Qed.

Lemma step_current_leg_None (loc : Coordinates) (b : bot) :
  current_leg (data b) = None -> current_leg (data (step loc b)) = None.
Proof.
  intro H. destruct (step_current_leg loc b) as [E|[E|(i & Hi & _)]];
    congruence.
Qed.

Lemma run_current_leg_None (locs : list Coordinates) :
  forall b, current_leg (data b) = None ->
            current_leg (data (run locs b)) = None.
Proof.
  induction locs as [|loc locs IH]; intros b H; [exact H|].
  cbn [process_locations fold_left]. apply IH.
  now apply step_current_leg_None.
Qed.

Lemma run_current_leg (locs : list Coordinates) :
  forall b i j,
    current_leg (data b) = Some i ->
    current_leg (data (run locs b)) = Some j ->
    i <= j <= i + Z.of_nat (List.length locs).
Proof.
  induction locs as [|loc locs IH]; intros b i j Hi Hj.
  - cbn in Hj. rewrite Hi in Hj. injection Hj as <-. cbn. lia.
  - change (run (loc :: locs) b) with (run locs (step loc b)) in Hj.
    cbn [List.length]. rewrite Nat2Z.inj_succ.
    destruct (step_current_leg loc b) as [E|[E|(i0 & Hi0 & E)]].
    + rewrite Hi in E. specialize (IH _ _ _ E Hj). lia.
    + rewrite (run_current_leg_None locs _ E) in Hj. discriminate.
    + rewrite Hi in Hi0. injection Hi0 as <-.
      specialize (IH _ _ _ E Hj). lia.
Qed.

(** A call that sends nothing, or only the warning, keeps the step
    counter. *)
Lemma step_quiet_current_leg (loc : Coordinates) (b : bot) :
  sent (step loc b) = sent b \/ sent (step loc b) = sent b ++ [Warning] ->
  current_leg (data (step loc b)) = current_leg (data b).
Proof.
  destruct b as [[cl ds dn i rid] out].
  bot_unfold. bot_cases.
  all: cbn; try reflexivity.
  all: rewrite <- ?app_assoc; cbn [app].
  all: intros [H|H]; apply (f_equal (@List.length event)) in H;
    rewrite ?length_app in H; cbn in H; lia.
Qed.

(** The next-checkpoint message that a call sends is the one computed on
    the user data as they are before the step counter advances. *)
Lemma next_checkpoint_message_before_advance
      (loc : Coordinates) (b : bot) (m : checkpoint_message) :
  sent b = [] ->
  In (NextCheckpointMessage m) (sent (step loc b)) ->
  _get_next_checkpoint_message
    haversine
    (mkUserData (Some loc) (directions (data b)) (dst_name (data b))
                (current_leg (data b)) (route_id (data b))) = Ok m
  /\ Some (msg_reached m) = current_leg (data b).
Proof.
  destruct b as [[cl ds dn i rid] out]. cbn [sent data]. intros ->.
  bot_unfold. bot_cases.
  all: cbn [app In]; intro H; repeat (destruct H as [H|H]); try discriminate H;
    try contradiction.
  all: injection H as <-.
  all: split; [reflexivity|].
  all: match goal with
       | E : _get_next_checkpoint_message _ _ = Ok _ |- _ =>
           unfold _get_next_checkpoint_message in E;
           cbv beta iota delta [bind of_option current_leg directions] in E
       end.
  all: repeat match goal with
         | E : match ?x with _ => _ end = Ok _ |- _ =>
             destruct x eqn:?; try discriminate E
         | E : (if ?x then _ else _) = Ok _ |- _ =>
             destruct x eqn:?; try discriminate E
         end.
  all: match goal with
       | E : Ok _ = Ok _ |- _ => injection E as <-
       end; reflexivity.
Qed.

(** C7.  From an active session, over any sequence of location updates
    the step counter does not decrease and advances by at most one per
    update; an update that sends nothing, or sends only the off-route
    warning, leaves it as it is. *)
Theorem current_leg_monotone (b : bot) :
  (forall loc i j,
      current_leg (data b) = Some i ->
      current_leg (data (step loc b)) = Some j ->
      i <= j <= i + 1)
  /\ (forall locs i j,
         current_leg (data b) = Some i ->
         current_leg (data (run locs b)) = Some j ->
         i <= j <= i + Z.of_nat (List.length locs))
  /\ (forall loc,
         sent (step loc b) = sent b
         \/ sent (step loc b) = sent b ++ [Warning] ->
         current_leg (data (step loc b)) = current_leg (data b)).
Proof.
  split; [|split].
  - intros loc i j Hi Hj.
    exact (run_current_leg [loc] b i j Hi Hj).
  - intros locs i j. apply run_current_leg.
  - intro loc. apply step_quiet_current_leg.
Qed.

End Handler.

(** ** The theorems on the walk and on the drive *)

Lemma last_mile_simplification_witness :
  drive_legs = drive_first_legs ++ [drive_penult_leg; drive_last_leg]
  /\ (grid_haversine (2 # 1000, 1 # 1000) drive_end KILOMETERS
      < grid_haversine (2 # 1000, 0) drive_end KILOMETERS)%Q
  /\ post_processing grid_haversine drive_legs
     = Ok (drive_first_legs
             ++ [collapse grid_haversine drive_penult_leg
                          (2 # 1000, 0)%Q drive_end]).
Proof.
  split; [reflexivity|]. split; [reflexivity|].
  refine (proj1 (proj2 (last_mile_simplification grid_haversine drive_legs)
                       drive_first_legs drive_penult_leg drive_last_leg
                       (2 # 1000, 0)%Q (2 # 1000, 1 # 1000)%Q drive_end
                       eq_refl _ eq_refl eq_refl eq_refl) _).
  - repeat constructor.
  - reflexivity.
Defined.

Lemma current_leg_monotone_witness :
  current_leg (data walk_bot) = Some 0
  /\ current_leg
       (data (process_locations grid_haversine
                [(0, 0)%Q; (1 # 2000, 0)%Q; (1 # 1000, 0)%Q] walk_bot))
     = Some 2
  /\ 0 <= 2 <= 0 + Z.of_nat 3.
Proof.
  split; [reflexivity|]. split; [reflexivity|].
  exact (proj1 (proj2 (current_leg_monotone grid_haversine walk_bot))
               [(0, 0)%Q; (1 # 2000, 0)%Q; (1 # 1000, 0)%Q] 0 2
               eq_refl eq_refl).
Defined.

(** C1, on the code.  The user of the walk arrives at the checkpoint of
    leg 0.  The handler builds the message before it advances the step
    counter: the message sent is that of leg 0, whose checkpoint was just
    reached, and not the message of leg 1, the current leg after the
    call. *)
Theorem checkpoint_message_is_of_the_reached_leg :
  let b' := process_user_location grid_haversine (0, 0)%Q walk_bot in
  exists leg0 leg1 rest m m',
    walk_directions = leg0 :: leg1 :: rest
    /\ leg_mid leg0 = WCoords (0, 0)%Q
    /\ current_leg (data b') = Some 1
    /\ sent b' = [NextCheckpointMessage m; Photo "101500" 1]
    /\ msg_reached m = 0
    /\ msg_you_are_at m = leg_src leg0
    /\ msg_coordinates m = leg_mid leg0
    /\ msg_street_name m = leg_next_name leg0
    /\ msg_instruction m = GoStraight "the street" 30 None
    /\ _get_next_checkpoint_message grid_haversine (data b') = Ok m'
    /\ msg_reached m' = 1
    /\ msg_coordinates m' = leg_mid leg1
    /\ msg_instruction m' = GoStraight "Carrer de Mallorca" 110 None
    /\ m <> m'.
Proof.
  cbv zeta. do 5 eexists.
  repeat (split; [vm_compute; reflexivity|]).
  vm_compute. discriminate.
Qed.

(** * Further properties of the code *)

(** ** Rounding to a multiple of five *)

Lemma round5_unfold (n : Q) :
  let q := Qfloor (n / 5) in
  (inject_Z (5 * q) <= n)%Q /\ (n < inject_Z (5 * q) + 5)%Q.
Proof.
  intro q.
  pose proof (Qfloor_le (n / 5)) as Hlo.
  pose proof (Qlt_floor (n / 5)) as Hhi.
  fold q in Hlo, Hhi.
  rewrite inject_Z_plus in Hhi.
  rewrite inject_Z_mult.
  assert (E : (n == 5 * (n / 5))%Q) by (field).
  change (inject_Z 5) with 5%Q. change (inject_Z 1) with 1%Q in Hhi.
  set (x := (n / 5)%Q) in *.
  split; lra.
Qed.

Lemma round5_bounds (n : Q) :
  (exists k, _round5 n = 5 * k)
  /\ (inject_Z (_round5 n) - 3 < n)%Q
  /\ (n <= inject_Z (_round5 n) + 2)%Q.
Proof.
  destruct (round5_unfold n) as [Hlo Hhi]. cbv zeta in Hlo, Hhi.
  unfold _round5.
  set (q := Qfloor (n / 5)) in *.
  assert (En5 : inject_Z (q * 5) = inject_Z (5 * q))
    by (f_equal; lia).
  destruct (Qle_bool (n - inject_Z (5 * q)) 2) eqn:E.
  - apply Qle_bool_iff in E. rewrite En5.
    split; [exists q; lia|]. split; lra.
  - assert (Hgt : (2 < n - inject_Z (5 * q))%Q).
    { apply Qnot_le_lt. intro H. apply Qle_bool_iff in H. congruence. }
    rewrite inject_Z_plus, En5. change (inject_Z 5) with 5%Q.
    split; [exists (q + 1); lia|]. split; lra.
Qed.


(** On whole numbers of metres [_round5] is the nearest multiple of 5. *)
Theorem round5_nearest_on_integers (z : Z) :
  (exists k, _round5 (inject_Z z) = 5 * k)
  /\ Z.abs (_round5 (inject_Z z) - z) <= 2.
Proof.
  destruct (round5_bounds (inject_Z z)) as (Hk & Hlo & Hhi).
  split; [exact Hk|].
  set (r := _round5 (inject_Z z)) in *.
  unfold Qlt, Qle, Qminus, Qplus, Qopp, inject_Z in Hlo, Hhi.
  cbn in Hlo, Hhi. lia.
Qed.

(** On other numbers it is not: when the remainder of the division by 5
    lies strictly between 2 and 2.5, [_round5] rounds up although the
    multiple of 5 below is closer. *)
Theorem round5_rounds_up_above_two (n : Q) :
  let q := Qfloor (n / 5) in
  (2 < n - inject_Z (5 * q))%Q ->
  (n - inject_Z (5 * q) < 5 # 2)%Q ->
  _round5 n = 5 * q + 5
  /\ (n - inject_Z (5 * q) < inject_Z (5 * q + 5) - n)%Q.
Proof.
  intros q Hlo Hhi. unfold _round5. fold q.
  destruct (Qle_bool (n - inject_Z (5 * q)) 2) eqn:E.
  - apply Qle_bool_iff in E. lra.
  - split; [lia|].
    rewrite inject_Z_plus. change (inject_Z 5) with 5%Q. lra.
Qed.

Lemma round5_rounds_up_above_two_witness :
  _round5 (12 # 5) = 5 * Qfloor ((12 # 5) / 5) + 5
  /\ ((12 # 5) - inject_Z (5 * Qfloor ((12 # 5) / 5))
      < inject_Z (5 * Qfloor ((12 # 5) / 5) + 5) - (12 # 5))%Q.
Proof.
  apply (round5_rounds_up_above_two (12 # 5)); reflexivity.
Defined.

(** ** The fields of a leg *)

Ltac result_cases H :=
  repeat (cbv beta iota zeta in H;
          match type of H with
          | context [match ?x with _ => _ end] =>
              lazymatch x with
              | context [match _ with _ => _ end] => fail
              | _ => destruct x eqn:?; try discriminate H
              end
          | context [if ?x then _ else _] =>
              lazymatch x with
              | context [match _ with _ => _ end] => fail
              | _ => destruct x eqn:?; try discriminate H
              end
          end).

Ltac leg_unfold H :=
  cbv beta iota zeta delta
      [_compute_leg_of_the_route _compute_angle is_OSMid andb
       _get_coordinates graph_edge bind of_option] in H.

Section LegFields.

Variable calculate_bearing : Q -> Q -> Q -> Q -> Q.

Lemma leg_fields (g : Graph) (src mid dst : waypoint)
        (leg : RouteLeg) :
  _compute_leg_of_the_route calculate_bearing g src mid dst = Ok leg ->
  leg_src leg = resolve g src
  /\ leg_mid leg = match dst with
                   | WNone => mid
                   | _ => resolve g mid
                   end
  /\ leg_dst leg = resolve g dst
  /\ (leg_angle leg <> None <-> is_OSMid src = true /\ is_OSMid dst = true)
  /\ (is_OSMid src = false \/ dst = WNone ->
      leg_current_name leg = None /\ leg_length leg = None)
  /\ (is_OSMid dst = false -> leg_next_name leg = None).
Proof.
  intro H.
  destruct src as [cs|ps|]; destruct dst as [cd|pd|];
    destruct mid as [cm|pm|]; leg_unfold H; try discriminate H;
    result_cases H; injection H as <-; cbn [resolve leg_src leg_mid leg_dst
      leg_angle leg_current_name leg_length leg_next_name set_src set_mid
      set_dst set_angle set_current_name set_length set_next_name is_OSMid];
    rewrite ?Heqo, ?Heqo0, ?Heqo1, ?Heqo2, ?Heqo3, ?Heqo4;
    repeat split; try reflexivity; try congruence;
    try (intros [? ?]; congruence); try (intros [?|?]; congruence);
    try (intros; discriminate);
    try match goal with
        | H : _ \/ _ |- _ => destruct H; congruence
        end.
Qed.

(** What [_compute_leg_of_the_route] puts in a leg, when it returns one:
    the source and the forward point are resolved to coordinates, the
    checkpoint is resolved unless the leg is the terminal one; the turn
    angle is present exactly when the source and the forward point are
    both nodes; the name and length of the current street are absent when
    the source is not a node or the leg is terminal, and the name of the
    next street is absent when the forward point is not a node. *)
Theorem compute_leg_fields (g : Graph) (src mid dst : waypoint)
        (leg : RouteLeg) :
  _compute_leg_of_the_route calculate_bearing g src mid dst = Ok leg ->
  leg_src leg = resolve g src
  /\ leg_mid leg = match dst with
                   | WNone => mid
                   | _ => resolve g mid
                   end
  /\ leg_dst leg = resolve g dst
  /\ (leg_angle leg <> None <-> is_OSMid src = true /\ is_OSMid dst = true)
  /\ (is_OSMid src = false \/ dst = WNone ->
      leg_current_name leg = None /\ leg_length leg = None)
  /\ (is_OSMid dst = false -> leg_next_name leg = None).
Proof. exact (leg_fields g src mid dst leg). Qed.

End LegFields.

Lemma compute_leg_fields_witness :
  let leg := mkLeg (WCoords (0, 0)%Q) (Some "Carrer de Mallorca"%string)
                   (Some 111%Q) (WCoords (1 # 1000, 0)%Q)
                   (Some "Carrer de Mallorca"%string)
                   (WCoords (2 # 1000, 0)%Q) (Some 0%Q) in
  leg_src leg = resolve street_graph (WNode 1)
  /\ leg_mid leg = resolve street_graph (WNode 2)
  /\ leg_dst leg = resolve street_graph (WNode 3)
  /\ (leg_angle leg <> None <->
      is_OSMid (WNode 1) = true /\ is_OSMid (WNode 3) = true)
  /\ (is_OSMid (WNode 1) = false \/ WNode 3 = WNone ->
      leg_current_name leg = None /\ leg_length leg = None)
  /\ (is_OSMid (WNode 3) = false -> leg_next_name leg = None).
Proof.
  exact (compute_leg_fields axis_bearing street_graph
           (WNode 1) (WNode 2) (WNode 3) _ eq_refl).
Defined.

(** ** The legs of a complete route, leg by leg *)

(** The waypoint after the nodes [rest] on a route that ends at [e]. *)
Definition next_waypoint (rest : list OSMid) (e : Coordinates) : waypoint :=
  match rest with
  | [] => WCoords e
  | m :: _ => WNode m
  end.

(** [built g e w0 path ds]: the legs [ds] are those computed, window by
    window, on the route [w0], [path], [e], [None]. *)
Fixpoint built (calculate_bearing : Q -> Q -> Q -> Q -> Q) (g : Graph)
         (e : Coordinates) (w0 : waypoint) (path : list OSMid)
         (ds : list RouteLeg) : Prop :=
  match path with
  | [] =>
      exists leg,
        ds = [leg]
        /\ _compute_leg_of_the_route calculate_bearing g w0 (WCoords e) WNone
           = Ok leg
  | n :: rest =>
      exists leg ds',
        ds = leg :: ds'
        /\ _compute_leg_of_the_route calculate_bearing g w0 (WNode n)
                                     (next_waypoint rest e) = Ok leg
        /\ built calculate_bearing g e (WNode n) rest ds'
  end.

(** Consecutive legs: the next leg starts at the checkpoint of the leg
    before it. *)
Fixpoint src_chained (ds : list RouteLeg) : Prop :=
  match ds with
  | l1 :: ((l2 :: _) as rest) => leg_src l2 = leg_mid l1 /\ src_chained rest
  | _ => True
  end.

(** Consecutive legs: the forward point of a leg is the checkpoint of the
    next leg. *)
Fixpoint dst_chained (ds : list RouteLeg) : Prop :=
  match ds with
  | l1 :: ((l2 :: _) as rest) => leg_dst l1 = leg_mid l2 /\ dst_chained rest
  | _ => True
  end.

(** A leg that the bot can track: it starts and has its checkpoint at
    coordinates. *)
Definition leg_ok (l : RouteLeg) : Prop :=
  (exists a, leg_src l = WCoords a) /\ (exists b, leg_mid l = WCoords b).

Section Built.

Variable haversine : Coordinates -> Coordinates -> Unit -> Q.
Variable calculate_bearing : Q -> Q -> Q -> Q -> Q.

Lemma legs_window_built (g : Graph) (e : Coordinates) (path : list OSMid) :
  forall w0 ds,
    legs_window calculate_bearing g
                (w0 :: map WNode path ++ [WCoords e; WNone]) = Ok ds ->
    built calculate_bearing g e w0 path ds.
Proof.
  induction path as [|n rest IH]; intros w0 ds H.
  - cbn [map app] in H. rewrite legs_window_step in H.
    cbn [legs_window] in H.
    destruct (_compute_leg_of_the_route calculate_bearing g w0 (WCoords e)
                                        WNone) as [leg|] eqn:E;
      [|discriminate H].
    cbn [bind] in H. injection H as <-. now exists leg.
  - assert (Hnext : map WNode rest ++ [WCoords e; WNone]
                    = next_waypoint rest e
                        :: tl (map WNode rest ++ [WCoords e; WNone]))
      by (destruct rest; reflexivity).
    cbn [map app] in H. rewrite Hnext in H.
    rewrite legs_window_step in H. rewrite <- Hnext in H.
    destruct (_compute_leg_of_the_route calculate_bearing g w0 (WNode n)
                                        (next_waypoint rest e))
      as [leg|] eqn:E; [|discriminate H].
    cbn [bind] in H.
    destruct (legs_window calculate_bearing g
                (WNode n :: map WNode rest ++ [WCoords e; WNone]))
      as [ds'|] eqn:E'; [|discriminate H].
    cbn [bind] in H. injection H as <-.
    exists leg, ds'. split; [reflexivity|]. split; [exact E|].
    now apply IH.
Qed.

Lemma built_length (g : Graph) (e : Coordinates) (path : list OSMid) :
  forall w0 ds,
    built calculate_bearing g e w0 path ds ->
    List.length ds = S (List.length path).
Proof.
  induction path as [|n rest IH]; intros w0 ds H; cbn [built] in H.
  - destruct H as (leg & -> & _). reflexivity.
  - destruct H as (leg & ds' & -> & _ & H). cbn [List.length].
    now rewrite (IH _ _ H).
Qed.

Lemma built_head (g : Graph) (e : Coordinates) (path : list OSMid)
      (w0 : waypoint) (ds : list RouteLeg) :
  built calculate_bearing g e w0 path ds ->
  exists l tl,
    ds = l :: tl
    /\ leg_src l = resolve g w0
    /\ leg_mid l = resolve g (next_waypoint path e).
Proof.
  destruct path as [|n rest]; cbn [built]; intro H.
  - destruct H as (leg & -> & H). exists leg, [].
    destruct (leg_fields _ _ _ _ _ _ H) as (Hs & Hm & _).
    now repeat split.
  - destruct H as (leg & ds' & -> & H & _). exists leg, ds'.
    destruct (leg_fields _ _ _ _ _ _ H) as (Hs & Hm & _).
    split; [reflexivity|]. split; [exact Hs|].
    destruct rest; exact Hm.
Qed.

(** The legs as built are chained both ways. *)
Lemma built_chained (g : Graph) (e : Coordinates) (path : list OSMid) :
  forall w0 ds,
    built calculate_bearing g e w0 path ds ->
    src_chained ds /\ dst_chained ds.
Proof.
  induction path as [|n rest IH]; intros w0 ds H; cbn [built] in H.
  - destruct H as (leg & -> & _). now split.
  - destruct H as (leg & ds' & -> & Hleg & Hrest).
    destruct (IH _ _ Hrest) as [Hsrc Hdst].
    destruct (built_head _ _ _ _ _ Hrest) as (l2 & tl & -> & Hs2 & Hm2).
    destruct (leg_fields _ _ _ _ _ _ Hleg) as (_ & Hm & Hd & _).
    cbn [src_chained dst_chained]. split; split; try assumption.
    + rewrite Hs2, Hm. destruct rest; reflexivity.
    + rewrite Hm2, Hd. reflexivity.
Qed.

(** A computed leg can be tracked when its source is a waypoint and, for
    the terminal leg, its checkpoint is a coordinate. *)
Lemma compute_leg_ok (g : Graph) (src mid dst : waypoint) (leg : RouteLeg) :
  _compute_leg_of_the_route calculate_bearing g src mid dst = Ok leg ->
  src <> WNone ->
  (dst = WNone -> exists c, mid = WCoords c) ->
  leg_ok leg.
Proof.
  intros H Hsrc Hmid.
  destruct (leg_fields _ _ _ _ _ _ H) as (Hs & Hm & _).
  unfold leg_ok. rewrite Hs, Hm. clear Hs Hm.
  destruct src as [cs|ps|]; [| |congruence];
    destruct dst as [cd|pd|];
    try (destruct (Hmid eq_refl) as [c ->]);
    try (destruct mid as [cm|pm|]);
    leg_unfold H; try discriminate H; result_cases H;
    cbn [resolve]; rewrite ?Heqo, ?Heqo0, ?Heqo1, ?Heqo2;
    split; eexists; reflexivity.
Qed.

Lemma built_leg_ok (g : Graph) (e : Coordinates) (path : list OSMid) :
  forall w0 ds,
    w0 <> WNone ->
    built calculate_bearing g e w0 path ds ->
    Forall leg_ok ds.
Proof.
  induction path as [|n rest IH]; intros w0 ds Hw0 H; cbn [built] in H.
  - destruct H as (leg & -> & H). constructor; [|constructor].
    apply (compute_leg_ok _ _ _ _ _ H Hw0). intros _. now exists e.
  - destruct H as (leg & ds' & -> & Hleg & Hrest). constructor.
    + apply (compute_leg_ok _ _ _ _ _ Hleg Hw0).
      destruct rest; discriminate.
    + apply (IH (WNode n)); [discriminate|exact Hrest].
Qed.

(** The turn angle is present on a leg as built exactly when its source
    and its forward point are nodes of the path. *)
Lemma built_angles (g : Graph) (e : Coordinates) (path : list OSMid) :
  forall w0 ds i leg,
    built calculate_bearing g e w0 path ds ->
    nth_error ds i = Some leg ->
    (leg_angle leg <> None <->
     (i = 0%nat -> is_OSMid w0 = true) /\ (i + 2 <= List.length path)%nat).
Proof.
  induction path as [|n rest IH]; intros w0 ds i leg H Hi; cbn [built] in H.
  - destruct H as (l & -> & H).
    destruct (leg_fields _ _ _ _ _ _ H) as (_ & _ & _ & Ha & _).
    destruct i as [|i]; [|destruct i; discriminate Hi].
    injection Hi as <-. rewrite Ha. cbn. split; [intros [_ ?]|]; [discriminate|].
    intros [_ ?]. lia.
  - destruct H as (l & ds' & -> & Hleg & Hrest).
    destruct i as [|i]; cbn [nth_error] in Hi.
    + injection Hi as <-.
      destruct (leg_fields _ _ _ _ _ _ Hleg) as (_ & _ & _ & Ha & _).
      rewrite Ha. destruct rest as [|m rest]; cbn.
      * split; [intros [_ ?]; discriminate|intros [_ ?]; lia].
      * split; [intros [? _]; split; [auto|lia]|].
        intros [Hw _]. split; [now apply Hw|reflexivity].
    + rewrite (IH _ _ _ _ Hrest Hi). cbn.
      split; intros [_ ?]; (split; [intros; (discriminate || reflexivity)|lia]).
Qed.

End Built.

(** ** The directions, whenever they are returned *)

Lemma last_two_split {A : Type} (l : list A) :
  (2 <= List.length l)%nat -> exists pre p x, l = pre ++ [p; x].
Proof.
  induction l as [|a l IH]; cbn; [lia|].
  destruct l as [|b l]; cbn in *; [lia|].
  destruct l as [|c l].
  - intros _. now exists [], a, b.
  - intros _. destruct IH as (pre & p & x & E); [cbn; lia|].
    exists (a :: pre), p, x. now rewrite E.
Qed.

Lemma src_chained_collapse (pre : list RouteLeg) (P P' L : RouteLeg) :
  leg_src P' = leg_src P ->
  src_chained (pre ++ [P; L]) -> src_chained (pre ++ [P']).
Proof.
  intro Hsrc. induction pre as [|a pre IH]; [intros _; exact I|].
  destruct pre as [|b pre].
  - cbn. intros [H _]. split; [congruence|exact I].
  - cbn [app src_chained] in *. intros [H Hrest]. split; [exact H|].
    now apply IH.
Qed.

Lemma src_chained_last_mid (ds : list RouteLeg) :
  forall pre P L,
    ds = pre ++ [P; L] -> dst_chained ds -> leg_dst P = leg_mid L.
Proof.
  intros pre. revert ds.
  induction pre as [|a pre IH]; intros ds P L -> H.
  - cbn in H. exact (proj1 H).
  - destruct pre as [|b pre].
    + cbn in H. exact (proj1 (proj2 H)).
    + cbn [app dst_chained] in H. destruct H as [_ H].
      exact (IH _ P L eq_refl H).
Qed.

Section Directions.

Variable haversine : Coordinates -> Coordinates -> Unit -> Q.
Variable calculate_bearing : Q -> Q -> Q -> Q -> Q.

(** The post-processing step returns the legs as they are, or collapses
    the last two of at least three. *)
Lemma post_processing_cases (ds ds' : list RouteLeg) :
  post_processing haversine ds = Ok ds' ->
  ds' = ds
  \/ exists pre P L a c,
      ds = pre ++ [P; L] /\ pre <> []
      /\ leg_src P = WCoords a /\ leg_dst P = WCoords c
      /\ ds' = pre ++ [collapse haversine P a c].
Proof.
  intro H. unfold post_processing in H.
  destruct (Z.leb_spec 3 (Z.of_nat (List.length ds))) as [Hlen|Hlen];
    [|left; congruence].
  destruct (last_two_split ds) as (pre & P & L & ->); [lia|].
  rewrite py_get_penult in H.
  cbv beta iota delta [bind py_haversine] in H.
  cbn [set_mid set_dst set_length leg_src leg_mid leg_dst leg_length
       leg_current_name leg_next_name leg_angle] in H.
  destruct (leg_src P) as [a| |] eqn:Es; try discriminate H.
  destruct (leg_dst P) as [c| |] eqn:Ed; try discriminate H.
  destruct (leg_mid P) as [b| |] eqn:Em; try discriminate H.
  destruct (Qltb (haversine b c KILOMETERS) (haversine a c KILOMETERS));
    [|left; congruence].
  rewrite py_set_penult in H.
  change (pre ++ [?x; L]) with (pre ++ [x] ++ [L]) in H.
  rewrite app_assoc, py_pop_snoc in H. injection H as <-.
  right. exists pre, P, L, a, c.
  repeat split; try reflexivity; try assumption.
  intros ->. cbn in Hlen. lia.
Qed.

Lemma built_last (g : Graph) (e : Coordinates) (path : list OSMid) :
  forall w0 ds,
    built calculate_bearing g e w0 path ds ->
    exists pre L, ds = pre ++ [L] /\ leg_mid L = WCoords e.
Proof.
  induction path as [|n rest IH]; intros w0 ds H; cbn [built] in H.
  - destruct H as (leg & -> & H). exists [], leg. split; [reflexivity|].
    now destruct (leg_fields _ _ _ _ _ _ H) as (_ & Hm & _).
  - destruct H as (leg & ds' & -> & _ & Hrest).
    destruct (IH _ _ Hrest) as (pre & L & -> & HL).
    now exists (leg :: pre), L.
Qed.

(** Whenever the legs of a route are returned, there is at least one,
    and they are one more than the nodes of the path, or as many when the
    post-processing step has collapsed the last two, which needs a path of
    at least two nodes. *)
Theorem build_legs_count (g : Graph) (s e : Coordinates)
        (path : list OSMid) (directions : list RouteLeg) :
  build_legs haversine calculate_bearing g s path e = Ok directions ->
  directions <> []
  /\ (List.length directions = (List.length path + 1)%nat
      \/ ((2 <= List.length path)%nat
          /\ List.length directions = List.length path)).
Proof.
  unfold build_legs. rewrite compute_legs_window. intro H.
  destruct (legs_window calculate_bearing g (complete_route s path e))
    as [legs|] eqn:E; cbn [bind] in H; [|discriminate H].
  apply legs_window_built in E. apply built_length in E.
  destruct (post_processing_cases _ _ H)
    as [->|(pre & P & L & a & c & -> & Hpre & _ & _ & ->)].
  - split; [destruct legs; [discriminate|congruence]|]. left. lia.
  - rewrite !length_app in *. cbn [List.length] in *.
    split; [destruct pre; [congruence|discriminate]|].
    right. destruct pre; [congruence|]. cbn [List.length] in *. lia.
Qed.

Lemma directions_route (g : Graph) (src_coords dst_coords : Coordinates)
        (directions : list RouteLeg) :
  get_directions haversine calculate_bearing g src_coords dst_coords
  = Ok directions ->
  Forall leg_ok directions
  /\ src_chained directions
  /\ (exists first tl,
         directions = first :: tl /\ leg_src first = WCoords src_coords)
  /\ (exists pre last_leg,
         directions = pre ++ [last_leg]
         /\ leg_mid last_leg = WCoords dst_coords).
Proof.
  unfold get_directions. intro H.
  destruct (_get_nearest_node haversine g src_coords) as [src_node|];
    cbn [bind] in H; [|discriminate H].
  destruct (_get_nearest_node haversine g dst_coords) as [dst_node|];
    cbn [bind] in H; [|discriminate H].
  destruct (shortest_path g src_node dst_node) as [route|];
    cbn [bind] in H; [|discriminate H].
  unfold build_legs in H.
  rewrite compute_legs_window in H.
  destruct (legs_window calculate_bearing g
              (complete_route src_coords route dst_coords))
    as [legs|] eqn:E; cbn [bind] in H; [|discriminate H].
  apply legs_window_built in E.
  assert (Hok : Forall leg_ok legs)
    by (eapply built_leg_ok; [|exact E]; discriminate).
  destruct (built_chained _ _ _ _ _ _ E) as [Hsrc Hdst].
  destruct (built_head _ _ _ _ _ _ E) as (first & tl & Ehd & Hfirst & _).
  destruct (built_last _ _ _ _ _ E) as (pre0 & L0 & Elast & HL0).
  cbn [resolve] in Hfirst.
  destruct (post_processing_cases _ _ H)
    as [->|(pre & P & L & a & c & Eq & Hpre & Hs & Hd & ->)].
  - repeat split; try assumption.
    + now exists first, tl.
    + now exists pre0, L0.
  - assert (HL : L = L0).
    { rewrite Eq in Elast.
      change (pre ++ [P; L]) with (pre ++ [P] ++ [L]) in Elast.
      rewrite app_assoc in Elast.
      now apply app_inj_tail in Elast. }
    subst L0.
    pose proof (src_chained_last_mid _ _ _ _ Eq Hdst) as HPL.
    rewrite Hd, HL0 in HPL. injection HPL as ->.
    rewrite Eq in Hok, Hsrc.
    repeat split.
    + apply Forall_app in Hok. destruct Hok as [Hpre_ok HPL].
      apply Forall_app. split; [exact Hpre_ok|].
      constructor; [|constructor].
      split; [exists a; exact Hs|now exists dst_coords].
    + now apply (src_chained_collapse pre P _ L).
    + destruct pre as [|f pre']; [congruence|].
      rewrite Eq in Ehd. injection Ehd as -> _.
      now exists first, (pre' ++ [collapse haversine P a dst_coords]).
    + now exists pre, (collapse haversine P a dst_coords).
Qed.

(** Whenever the directions are returned, the bot can track every leg
    (it starts and has its checkpoint at coordinates), each leg starts at
    the checkpoint of the leg before it, the first leg starts at the
    source coordinates and the last leg has the destination coordinates
    as its checkpoint. *)
Theorem get_directions_route (g : Graph) (src_coords dst_coords : Coordinates)
        (directions : list RouteLeg) :
  get_directions haversine calculate_bearing g src_coords dst_coords
  = Ok directions ->
  Forall leg_ok directions
  /\ src_chained directions
  /\ (exists first tl,
         directions = first :: tl /\ leg_src first = WCoords src_coords)
  /\ (exists pre last_leg,
         directions = pre ++ [last_leg]
         /\ leg_mid last_leg = WCoords dst_coords).
Proof. exact (directions_route g src_coords dst_coords directions). Qed.

End Directions.

(** ** Failures of the leg builder *)

Section Failures.

Variable haversine : Coordinates -> Coordinates -> Unit -> Q.
Variable calculate_bearing : Q -> Q -> Q -> Q -> Q.

(** The only exception of [_compute_leg_of_the_route] is [KeyError]. *)
Lemma compute_leg_error (g : Graph) (src mid dst : waypoint) (e : exn) :
  _compute_leg_of_the_route calculate_bearing g src mid dst = Err e ->
  e = KeyError.
Proof.
  intro H.
  destruct src as [cs|ps|]; destruct dst as [cd|pd|];
    destruct mid as [cm|pm|]; leg_unfold H;
    result_cases H; try discriminate H; injection H as <-; reflexivity.
Qed.

(** A leg with a forward point whose checkpoint is not a node of the
    graph is not computed: the look-up raises [KeyError]. *)
Theorem compute_leg_unknown_checkpoint (g : Graph) (src mid dst : waypoint) :
  dst <> WNone ->
  _get_coordinates g mid = Err KeyError ->
  _compute_leg_of_the_route calculate_bearing g src mid dst = Err KeyError.
Proof.
  intros Hdst Hmid.
  destruct (_compute_leg_of_the_route calculate_bearing g src mid dst)
    as [leg|e] eqn:H.
  - exfalso.
    destruct src as [cs|ps|]; destruct dst as [cd|pd|]; try congruence;
      destruct mid as [cm|pm|]; leg_unfold H; try discriminate H;
      cbv beta iota delta [_get_coordinates of_option] in Hmid;
      result_cases H; discriminate Hmid.
  - now rewrite (compute_leg_error _ _ _ _ _ H).
Qed.

(** The look-ups behind a computed leg whose checkpoint is the node [n]. *)
Lemma compute_leg_lookups (g : Graph) (src dst : waypoint) (n : OSMid)
      (leg : RouteLeg) :
  _compute_leg_of_the_route calculate_bearing g src (WNode n) dst = Ok leg ->
  dst <> WNone ->
  is_Some (nodes g n) = true
  /\ match src with
     | WNode p => is_Some (adj g p n) = true
     | _ => True
     end.
Proof.
  intros H Hdst.
  destruct src as [cs|ps|]; destruct dst as [cd|pd|]; try congruence;
    leg_unfold H; result_cases H; split; reflexivity || exact I.
Qed.

Lemma built_valid (g : Graph) (e : Coordinates) (path : list OSMid) :
  forall w0 ds,
    built calculate_bearing g e w0 path ds ->
    chain_ok g (prev_of w0) path = true.
Proof.
  induction path as [|n rest IH]; intros w0 ds H; [reflexivity|].
  cbn [built] in H. destruct H as (leg & ds' & -> & Hleg & Hrest).
  cbn [chain_ok].
  destruct (compute_leg_lookups _ _ _ _ _ Hleg) as [Hn Hp];
    [destruct rest; discriminate|].
  pose proof (IH _ _ Hrest) as Hr. cbn [prev_of] in Hr.
  rewrite Hn, Hr. rewrite andb_true_r. cbn [andb].
  destruct w0; cbn [prev_of]; try reflexivity. exact Hp.
Qed.

Lemma legs_window_error (g : Graph) (route : list waypoint) (e : exn) :
  legs_window calculate_bearing g route = Err e -> e = KeyError.
Proof.
  induction route as [|a route IH]; [discriminate|].
  destruct route as [|b route]; [discriminate|].
  destruct route as [|c route]; [discriminate|].
  rewrite legs_window_step.
  destruct (_compute_leg_of_the_route calculate_bearing g a b c)
    as [leg|e1] eqn:E1; cbn [bind].
  - destruct (legs_window calculate_bearing g (b :: c :: route))
      as [ds|e2] eqn:E2; cbn [bind]; [discriminate|].
    intro H. injection H as <-. now apply IH.
  - intro H. injection H as <-. exact (compute_leg_error _ _ _ _ _ E1).
Qed.

(** On the legs as built the post-processing step does not raise. *)
Lemma post_processing_built (g : Graph) (s e : Coordinates)
      (path : list OSMid) (legs : list RouteLeg) :
  built calculate_bearing g e (WCoords s) path legs ->
  exists directions, post_processing haversine legs = Ok directions.
Proof.
  intro H.
  destruct (Nat.le_gt_cases 2 (List.length legs)) as [Hlen|Hlen].
  - destruct (last_two_split legs Hlen) as (pre & P & L & E).
    pose proof (built_leg_ok calculate_bearing g e path (WCoords s) legs
                  ltac:(discriminate) H) as Hok.
    destruct (built_chained calculate_bearing g e path _ _ H) as [_ Hdst].
    destruct (built_last calculate_bearing g e path _ _ H)
      as (pre0 & L0 & E0 & HL0).
    assert (L = L0).
    { rewrite E in E0.
      change (pre ++ [P; L]) with (pre ++ [P] ++ [L]) in E0.
      rewrite app_assoc in E0. now apply app_inj_tail in E0. }
    subst L0.
    pose proof (src_chained_last_mid _ _ _ _ E Hdst) as HPL.
    rewrite HL0 in HPL.
    rewrite E in Hok. apply Forall_app in Hok. destruct Hok as [_ Hok].
    inversion Hok as [|? ? [[a Ha] [b Hb]] _]; subst.
    eexists.
    exact (proj2 (post_processing_penult haversine pre P L a b e Ha Hb HPL)).
  - exists legs. unfold post_processing.
    destruct (Z.leb_spec 3 (Z.of_nat (List.length legs))); [lia|reflexivity].
Qed.

(** The legs of a route are returned exactly when the path is valid in
    the graph (its nodes are nodes of the graph and consecutive nodes are
    joined by an edge); on any other path the builder raises [KeyError],
    and it raises nothing else. *)
Theorem build_legs_succeeds_iff_valid (g : Graph) (s e : Coordinates)
        (path : list OSMid) :
  (valid_path g path ->
   exists directions,
     build_legs haversine calculate_bearing g s path e = Ok directions)
  /\ (~ valid_path g path ->
      build_legs haversine calculate_bearing g s path e = Err KeyError).
Proof.
  unfold build_legs. rewrite compute_legs_window.
  destruct (legs_window calculate_bearing g (complete_route s path e))
    as [legs|err] eqn:E; cbn [bind].
  - apply legs_window_built in E.
    destruct (post_processing_built g s e path legs E) as [ds Hds].
    split; [intros _; now exists ds|].
    intro Hnot. exfalso. apply Hnot. exact (built_valid g e path _ _ E).
  - split.
    + intro Hvalid. exfalso.
      destruct (legs_window_valid calculate_bearing g e path (WCoords s)
                  I Hvalid) as (ds & Hds & _).
      unfold complete_route in E. cbn [app] in E.
      change (map WNode path ++ WCoords e :: [] ++ [WNone])
        with (map WNode path ++ [WCoords e; WNone]) in E.
      congruence.
    + intros _. now rewrite (legs_window_error _ _ _ E).
Qed.

End Failures.

Lemma build_legs_succeeds_iff_valid_witness :
  (exists directions,
      build_legs grid_haversine axis_bearing street_graph
                 walk_start walk_path walk_end = Ok directions)
  /\ build_legs grid_haversine axis_bearing street_graph
                walk_start [1; 3] walk_end = Err KeyError.
Proof.
  split.
  - apply (proj1 (build_legs_succeeds_iff_valid grid_haversine axis_bearing
                    street_graph walk_start walk_end walk_path)).
    reflexivity.
  - apply (proj2 (build_legs_succeeds_iff_valid grid_haversine axis_bearing
                    street_graph walk_start walk_end [1; 3])).
    discriminate.
Defined.

Lemma compute_leg_unknown_checkpoint_witness :
  _compute_leg_of_the_route axis_bearing street_graph
                            (WNode 1) (WNode 7) (WNode 2) = Err KeyError.
Proof.
  apply compute_leg_unknown_checkpoint; [discriminate|reflexivity].
Defined.

(** ** Turn angles of the directions *)

Section Angles.

Variable haversine : Coordinates -> Coordinates -> Unit -> Q.
Variable calculate_bearing : Q -> Q -> Q -> Q -> Q.

(** The post-processing step keeps the turn angle of every leg it keeps. *)
Lemma post_processing_angles (ds ds' : list RouteLeg) (i : nat)
      (leg' : RouteLeg) :
  post_processing haversine ds = Ok ds' ->
  nth_error ds' i = Some leg' ->
  exists leg, nth_error ds i = Some leg /\ leg_angle leg = leg_angle leg'.
Proof.
  intros H Hi.
  destruct (post_processing_cases haversine _ _ H)
    as [->|(pre & P & L & a & c & -> & _ & _ & _ & ->)].
  - now exists leg'.
  - destruct (Nat.lt_ge_cases i (List.length pre)) as [Hlt|Hge].
    + rewrite nth_error_app1 in Hi by exact Hlt.
      exists leg'. split; [|reflexivity].
      now rewrite nth_error_app1 by exact Hlt.
    + rewrite nth_error_app2 in Hi by exact Hge.
      rewrite nth_error_app2 by exact Hge.
      destruct (i - List.length pre)%nat as [|k]; cbn in Hi |- *.
      * injection Hi as <-. now exists P.
      * destruct k; discriminate Hi.
Qed.

(** In the directions returned for a path, the turn angle is present on
    the legs from the second one to the one whose forward point is the
    last node of the path, and on no other leg: the first leg and the legs
    that end at or point to the destination coordinates have none. *)
Theorem turn_angle_presence (g : Graph) (s e : Coordinates)
        (path : list OSMid) (directions : list RouteLeg) (i : nat)
        (leg : RouteLeg) :
  build_legs haversine calculate_bearing g s path e = Ok directions ->
  nth_error directions i = Some leg ->
  (leg_angle leg <> None <->
   (1 <= i)%nat /\ (i + 2 <= List.length path)%nat).
Proof.
  unfold build_legs. rewrite compute_legs_window. intros H Hi.
  destruct (legs_window calculate_bearing g (complete_route s path e))
    as [legs|] eqn:E; cbn [bind] in H; [|discriminate H].
  apply legs_window_built in E.
  destruct (post_processing_angles _ _ _ _ H Hi) as (leg0 & Hi0 & <-).
  rewrite (built_angles calculate_bearing g e path _ _ _ _ E Hi0).
  cbn [is_OSMid]. split.
  - intros [H0 H2]. split; [|exact H2].
    destruct i; [specialize (H0 eq_refl); discriminate|lia].
  - intros [H1 H2]. split; [intros ->; lia|exact H2].
Qed.

(** A compass bearing is at least 0 and less than 360 degrees. *)
Hypothesis bearing_range :
  forall lat1 lon1 lat2 lon2,
    (0 <= calculate_bearing lat1 lon1 lat2 lon2 < 360)%Q.

Lemma compute_angle_bounds (g : Graph) (src mid dst : waypoint) (a : Q) :
  _compute_angle calculate_bearing g src mid dst = Ok a ->
  (- (180) <= a)%Q /\ (a <= 180)%Q.
Proof.
  unfold _compute_angle. intro H.
  destruct (_get_coordinates g src) as [cs|]; cbn [bind] in H;
    [|discriminate H].
  destruct (_get_coordinates g mid) as [cm|]; cbn [bind] in H;
    [|discriminate H].
  destruct (_get_coordinates g dst) as [cd|]; cbn [bind] in H;
    [|discriminate H].
  cbv zeta in H.
  pose proof (bearing_range (fst cs) (snd cs) (fst cm) (snd cm)) as H1.
  pose proof (bearing_range (fst cm) (snd cm) (fst cd) (snd cd)) as H2.
  set (raw := (calculate_bearing (fst cm) (snd cm) (fst cd) (snd cd)
               - calculate_bearing (fst cs) (snd cs) (fst cm) (snd cm))%Q)
    in *.
  assert (Hraw : (- (360) < raw /\ raw < 360)%Q) by (unfold raw; lra).
  destruct (Qltb_spec (Qabs raw) 180) as [Hsmall|Hbig].
  - injection H as <-. apply Qabs_lt_iff in Hsmall. lra.
  - assert (Hout : (raw <= - (180) \/ 180 <= raw)%Q).
    { destruct (Qlt_le_dec raw 0) as [Hn|Hp].
      - rewrite Qabs_neg in Hbig by lra. left. lra.
      - rewrite Qabs_pos in Hbig by lra. right. lra. }
    injection H as <-.
    destruct (Qltb_spec raw 0); lra.
Qed.

Lemma compute_leg_angle_bounds (g : Graph) (src mid dst : waypoint)
      (leg : RouteLeg) (a : Q) :
  _compute_leg_of_the_route calculate_bearing g src mid dst = Ok leg ->
  leg_angle leg = Some a ->
  (- (180) <= a)%Q /\ (a <= 180)%Q.
Proof.
  intros H Ha. unfold _compute_leg_of_the_route in H.
  destruct (_compute_angle calculate_bearing g src mid dst) as [x|] eqn:E.
  - pose proof (compute_angle_bounds _ _ _ _ _ E) as Hx.
    destruct src as [cs|ps|]; destruct dst as [cd|pd|];
      cbv beta iota zeta delta [is_OSMid andb _get_coordinates graph_edge
                                bind of_option] in H;
      result_cases H; injection H as <-; cbn in Ha; try discriminate Ha.
    injection Ha as <-. exact Hx.
  - destruct src as [cs|ps|]; destruct dst as [cd|pd|];
      cbv beta iota zeta delta [is_OSMid andb _get_coordinates graph_edge
                                bind of_option] in H;
      result_cases H; injection H as <-; cbn in Ha; discriminate Ha.
Qed.

Lemma built_angle_bounds (g : Graph) (e : Coordinates) (path : list OSMid) :
  forall w0 ds i leg a,
    built calculate_bearing g e w0 path ds ->
    nth_error ds i = Some leg ->
    leg_angle leg = Some a ->
    (- (180) <= a)%Q /\ (a <= 180)%Q.
Proof.
  induction path as [|n rest IH]; intros w0 ds i leg a H Hi Ha;
    cbn [built] in H.
  - destruct H as (l & -> & H).
    destruct i as [|i]; [|destruct i; discriminate Hi].
    injection Hi as <-. exact (compute_leg_angle_bounds _ _ _ _ _ _ H Ha).
  - destruct H as (l & ds' & -> & Hleg & Hrest).
    destruct i as [|i]; cbn [nth_error] in Hi.
    + injection Hi as <-.
      exact (compute_leg_angle_bounds _ _ _ _ _ _ Hleg Ha).
    + exact (IH _ _ _ _ _ Hrest Hi Ha).
Qed.

(** Every turn angle in the directions that [get_directions] returns
    lies between -180 and 180 degrees, both included. *)
Theorem get_directions_angles (g : Graph) (src_coords dst_coords : Coordinates)
        (directions : list RouteLeg) (i : nat) (leg : RouteLeg) (a : Q) :
  get_directions haversine calculate_bearing g src_coords dst_coords
  = Ok directions ->
  nth_error directions i = Some leg ->
  leg_angle leg = Some a ->
  (- (180) <= a)%Q /\ (a <= 180)%Q.
Proof.
  unfold get_directions. intros H Hi Ha.
  destruct (_get_nearest_node haversine g src_coords) as [src_node|];
    cbn [bind] in H; [|discriminate H].
  destruct (_get_nearest_node haversine g dst_coords) as [dst_node|];
    cbn [bind] in H; [|discriminate H].
  destruct (shortest_path g src_node dst_node) as [route|];
    cbn [bind] in H; [|discriminate H].
  unfold build_legs in H. rewrite compute_legs_window in H.
  destruct (legs_window calculate_bearing g
              (complete_route src_coords route dst_coords))
    as [legs|] eqn:E; cbn [bind] in H; [|discriminate H].
  apply legs_window_built in E.
  destruct (post_processing_angles _ _ _ _ H Hi) as (leg0 & Hi0 & Hangle).
  rewrite <- Hangle in Ha.
  exact (built_angle_bounds g dst_coords route _ _ _ _ _ E Hi0 Ha).
Qed.

End Angles.

(** ** The theorems on a graph with a route *)

(** The street graph with a nearest-edge query (the edge between nodes 1
    and 2 south of latitude 0.0015, the edge between nodes 3 and 4 north
    of it) and the shortest paths from node 1. *)
Definition city_graph : Graph :=
  mkGraph street_nodes street_adj
          (fun x y => if Qltb y (3 # 2000) then Ok (1, 2, 0)
                      else Ok (3, 4, 0))
          (fun s t =>
             if s =? t then Ok [s]
             else match s, t with
                  | 1, 2 => Ok [1; 2]
                  | 1, 3 => Ok [1; 2; 3]
                  | 1, 4 => Ok [1; 2; 3; 4]
                  | _, _ => Err (ExternalError "NetworkXNoPath")
                  end).

Definition city_directions : list RouteLeg :=
  Eval vm_compute in
    match get_directions grid_haversine axis_bearing city_graph
                         walk_start drive_end with
    | Ok legs => legs
    | Err _ => []
    end.

Lemma build_legs_count_witness :
  walk_directions <> []
  /\ (List.length walk_directions = (List.length walk_path + 1)%nat
      \/ ((2 <= List.length walk_path)%nat
          /\ List.length walk_directions = List.length walk_path)).
Proof.
  exact (build_legs_count grid_haversine axis_bearing street_graph
           walk_start walk_end walk_path walk_directions eq_refl).
Defined.

Lemma get_directions_route_witness :
  Forall leg_ok city_directions
  /\ src_chained city_directions
  /\ (exists first tl,
         city_directions = first :: tl /\ leg_src first = WCoords walk_start)
  /\ (exists pre last_leg,
         city_directions = pre ++ [last_leg]
         /\ leg_mid last_leg = WCoords drive_end).
Proof.
  exact (get_directions_route grid_haversine axis_bearing city_graph
           walk_start drive_end city_directions eq_refl).
Defined.

Definition city_third_leg : RouteLeg :=
  Eval vm_compute in
    nth 2 city_directions (mkLeg WNone None None WNone None WNone None).

Lemma turn_angle_presence_witness :
  leg_angle city_third_leg <> None
  <-> (1 <= 2)%nat /\ (2 + 2 <= List.length drive_path)%nat.
Proof.
  exact (turn_angle_presence grid_haversine axis_bearing street_graph
           walk_start drive_end drive_path city_directions 2
           city_third_leg eq_refl eq_refl).
Defined.

Lemma get_directions_angles_witness :
  (- (180) <= 90)%Q /\ (90 <= 180)%Q.
Proof.
  exact (get_directions_angles grid_haversine axis_bearing
           axis_bearing_range city_graph walk_start drive_end
           city_directions 2 city_third_leg 90%Q eq_refl eq_refl eq_refl).
Defined.

(** ** The commands of the bot *)

(** What the commands send to the user. *)
Inductive reply : Type :=
| WelcomeMessage
| RouteCanceledMessage
| NoProgrammedRouteMessage
| InsertDestinationMessage
| AlreadyFollowingMessage
| NoLocationMessage
| NotReachableMessage
| RoutePhoto (route_id : string) (current_leg : Z)
| FirstCheckpointMessage (first_src first_mid : waypoint)
                         (next_name : option string).

Definition set_directions (ud : user_data) (v : option (list RouteLeg))
  : user_data :=
  mkUserData (current_location ud) v (dst_name ud) (current_leg ud)
             (route_id ud).
Definition set_dst_name (ud : user_data) (v : option string) : user_data :=
  mkUserData (current_location ud) (directions ud) v (current_leg ud)
             (route_id ud).
Definition set_leg (ud : user_data) (v : option Z) : user_data :=
  mkUserData (current_location ud) (directions ud) (dst_name ud) v
             (route_id ud).
Definition set_route_id (ud : user_data) (v : option string) : user_data :=
  mkUserData (current_location ud) (directions ud) (dst_name ud)
             (current_leg ud) v.

(** [start]: every key of a route that is present is deleted. *)
Definition start (ud : user_data) : user_data * list reply :=
  (set_route_id (set_leg (set_dst_name (set_directions ud None) None) None)
                None,
   [WelcomeMessage]).

(** [cancel]: the four keys are deleted in turn; the first one that is
    absent raises, and what was deleted before stays deleted. *)
Definition cancel (ud : user_data) : user_data * list reply :=
  match directions ud with
  | None => (ud, [NoProgrammedRouteMessage])
  | Some _ =>
      let ud := set_directions ud None in
      match dst_name ud with
      | None => (ud, [NoProgrammedRouteMessage])
      | Some _ =>
          let ud := set_dst_name ud None in
          match current_leg ud with
          | None => (ud, [NoProgrammedRouteMessage])
          | Some _ =>
              let ud := set_leg ud None in
              match route_id ud with
              | None => (ud, [NoProgrammedRouteMessage])
              | Some _ => (set_route_id ud None, [RouteCanceledMessage])
              end
          end
      end
  end.

Section Go.

Variable haversine : Coordinates -> Coordinates -> Unit -> Q.
Variable calculate_bearing : Q -> Q -> Q -> Q -> Q.
(** [GEOLOCATOR.geocode(query)] with the coordinates of its result. *)
Variable geocode : string -> result Coordinates.
(** [GUIDE.city] *)
Variable city : string.

(** [go], with the arguments of the command and the time stamp that
    becomes the route id. *)
Definition go (g : Graph) (args : list string) (now : string)
           (ud : user_data) : user_data * list reply :=
  match args with
  | [] => (ud, [InsertDestinationMessage])
  | _ :: _ =>
      match directions ud with
      | Some _ => (ud, [AlreadyFollowingMessage])
      | None =>
          match current_location ud with
          | None => (ud, [NoLocationMessage])
          | Some current_coords =>
              let destination_name := String.concat " " args in
              let ud := set_dst_name ud (Some destination_name) in
              let dst_place := (destination_name ++ ", " ++ city)%string in
              match geocode dst_place with
              | Err _ => (ud, [NotReachableMessage])
              | Ok dst_coords =>
                  match get_directions haversine calculate_bearing g
                                       current_coords dst_coords with
                  | Err _ => (ud, [NotReachableMessage])
                  | Ok ds =>
                      let ud := set_directions ud (Some ds) in
                      let ud := set_route_id ud (Some now) in
                      match py_get ds 0 with
                      | Err _ =>
                          (* [plot_directions] reads [directions[0]] *)
                          (ud, [NotReachableMessage])
                      | Ok first_leg =>
                          (set_leg ud (Some 0),
                           [RoutePhoto now 0;
                            FirstCheckpointMessage (leg_src first_leg)
                                                   (leg_mid first_leg)
                                                   (leg_next_name first_leg)])
                      end
                  end
              end
          end
      end
  end.

(** What a user does: a command or a location update. *)
Inductive action : Type :=
| Start
| Cancel
| Go (args : list string) (now : string)
| Location (current_loc : Coordinates).

(** The user data after an action. *)
Definition act (g : Graph) (a : action) (ud : user_data) : user_data :=
  match a with
  | Start => fst (start ud)
  | Cancel => fst (cancel ud)
  | Go args now => fst (go g args now ud)
  | Location current_loc =>
      data (process_user_location haversine current_loc (mkBot ud []))
  end.

Definition acts (g : Graph) (l : list action) (ud : user_data) : user_data :=
  fold_left (fun ud a => act g a ud) l ud.

End Go.

(** The user data of a user who has done nothing yet. *)
Definition new_user : user_data := mkUserData None None None None None.

(** The bot is tracking a route, or has none: when there are directions,
    every leg can be tracked, the destination name and the route id are
    present, and the step counter is the index of a leg. *)
Definition tracking (ud : user_data) : Prop :=
  match directions ud with
  | None => True
  | Some ds =>
      Forall leg_ok ds
      /\ dst_name ud <> None /\ route_id ud <> None
      /\ exists i, current_leg ud = Some i
                   /\ 0 <= i < Z.of_nat (List.length ds)
  end.

(** ** The handler on a route that the bot is tracking *)

Lemma py_get_in_range {A : Type} (l : list A) (i : Z) :
  0 <= i < Z.of_nat (List.length l) ->
  exists x, py_get l i = Ok x /\ In x l.
Proof.
  intro Hi. unfold py_get.
  destruct (Z.leb_spec 0 i); [|lia].
  destruct (Z.ltb_spec i (Z.of_nat (List.length l))); [|lia].
  cbn [andb].
  destruct (nth_error l (Z.to_nat i)) as [x|] eqn:E.
  - exists x. split; [reflexivity|]. exact (nth_error_In _ _ E).
  - apply nth_error_None in E. lia.
Qed.

Lemma turning_message_of_Some (a : Q) :
  exists s, _get_turning_message (Some a) = Ok s.
Proof.
  unfold _get_turning_message, py_abs, py_lt0, is_None.
  cbv beta iota delta [bind]. rewrite orb_false_r.
  destruct (Qltb (Qabs a) (45 # 2)); [eexists; reflexivity|].
  destruct (Qltb (Qabs a) (135 # 2)); [eexists; reflexivity|].
  destruct (Qltb (Qabs a) (225 # 2)); eexists; reflexivity.
Qed.

Section Tracking.

Variable haversine : Coordinates -> Coordinates -> Unit -> Q.

Local Abbreviation step := (process_user_location haversine).

(** On a leg that can be tracked the message is built. *)
Lemma next_checkpoint_message_of_leg (ud : user_data) (ds : list RouteLeg)
      (i : Z) (leg : RouteLeg) :
  directions ud = Some ds ->
  current_leg ud = Some i ->
  py_get ds i = Ok leg ->
  leg_ok leg ->
  exists m, _get_next_checkpoint_message haversine ud = Ok m.
Proof.
  intros Hds Hi Hleg [[a Ha] [b Hb]].
  unfold _get_next_checkpoint_message. rewrite Hds, Hi.
  cbv beta iota delta [of_option bind]. rewrite Hleg.
  cbv beta iota. rewrite Ha, Hb. unfold py_haversine.
  destruct (leg_length leg) as [len|]; cbv beta iota;
    (destruct (leg_dst leg); [| |eexists; reflexivity];
     (destruct (leg_angle leg) as [ang|]; [|eexists; reflexivity];
      destruct (Qltb (45 # 2) (Qabs ang)); [|eexists; reflexivity];
      destruct (turning_message_of_Some ang) as [t ->];
      eexists; reflexivity)).
Qed.

Lemma step_keeps_tracking (loc : Coordinates) (b : bot) :
  tracking (data b) ->
  tracking (data (step loc b))
  /\ exists sent_now,
      sent (step loc b) = sent b ++ sent_now
      /\ ~ In GpsProblemMessage sent_now.
Proof.
  destruct b as [[cl ds dn i rid] out]. unfold tracking. cbn [data sent directions dst_name route_id current_leg].
  destruct ds as [ds|].
  - intros (Hok & Hdn & Hrid & z & Hz & Hrange).
    destruct dn as [dn|]; [|congruence]. destruct rid as [rid|]; [|congruence].
    subst i. clear Hdn Hrid.
    destruct (py_get_in_range ds z Hrange) as (leg & Hleg & Hin).
    pose proof (proj1 (Forall_forall _ _) Hok leg Hin) as Hlegok.
    destruct cl as [last|].
    + destruct (next_checkpoint_message_of_leg
                  (mkUserData (Some loc) (Some ds) (Some dn) (Some z) (Some rid))
                  ds z leg eq_refl eq_refl Hleg Hlegok) as [m Hm].
      destruct Hlegok as [[a Ha] [k Hk]].
      bot_unfold. rewrite Hleg. bot_unfold. rewrite Hk.
      unfold _is_moving_away_from_the_route, _are_next_to_each_other, py_haversine.
      cbv beta iota delta [bind].
      destruct (Qltb _ _).
      * bot_unfold. split; [|exists [Warning]; split; [reflexivity|]].
        -- cbn. repeat split; try assumption; try discriminate. now exists z.
        -- cbn. intros [H|[]]. discriminate.
      * bot_unfold. destruct (Qle_bool _ _).
        -- bot_unfold. destruct (z + 1 =? Z.of_nat (Datatypes.length ds)) eqn:Elast.
           ++ bot_unfold. split; [exact I|].
              eexists. rewrite <- app_assoc. split; [reflexivity|].
              cbn. intros [H|[H|[]]]; discriminate.
           ++ bot_unfold. rewrite Hm. bot_unfold.
              apply Z.eqb_neq in Elast.
              destruct (leg_angle leg) as [ang|].
              ** destruct (turning_message_of_Some ang) as [t ->]. bot_unfold.
                 split.
                 --- cbn. repeat split; try assumption; try discriminate. exists (z+1). split; [reflexivity|lia].
                 --- eexists. rewrite <- !app_assoc. split; [reflexivity|].
                     cbn. intros [H|[H|[H|[]]]]; discriminate.
              ** bot_unfold. split.
                 --- cbn. repeat split; try assumption; try discriminate. exists (z+1). split; [reflexivity|lia].
                 --- eexists. rewrite <- !app_assoc. split; [reflexivity|].
                     cbn. intros [H|[H|[]]]; discriminate.
        -- bot_unfold. split.
           ++ cbn. repeat split; try assumption; try discriminate. now exists z.
           ++ exists []. split; [now rewrite app_nil_r|]. intros [].
    + bot_unfold. split.
      * cbn. repeat split; try assumption; try discriminate. now exists z.
      * exists [FirstLocationMessage]. split; [reflexivity|]. cbn. intros [H|[]]. discriminate.
  - intros _. destruct cl as [last|]; bot_unfold; (split; [exact I|]).
    + exists []. split; [now rewrite app_nil_r|]. intros [].
    + exists [FirstLocationMessage]. split; [reflexivity|]. cbn. intros [H|[]]. discriminate.
Qed.


(** The same over any sequence of location updates. *)
Lemma run_keeps_tracking (locs : list Coordinates) :
  forall b,
    tracking (data b) ->
    tracking (data (process_locations haversine locs b))
    /\ exists sent_now,
        sent (process_locations haversine locs b) = sent b ++ sent_now
        /\ ~ In GpsProblemMessage sent_now.
Proof.
  induction locs as [|loc locs IH]; intros b Hb.
  - split; [exact Hb|]. exists []. split; [now rewrite app_nil_r|intros []].
  - change (process_locations haversine (loc :: locs) b)
      with (process_locations haversine locs (step loc b)).
    destruct (step_keeps_tracking loc b Hb) as (Hb' & ev1 & E1 & H1).
    destruct (IH _ Hb') as (Hb'' & ev2 & E2 & H2).
    split; [exact Hb''|]. exists (ev1 ++ ev2).
    split; [now rewrite E2, E1, app_assoc|].
    intro Hin. apply in_app_or in Hin. tauto.
Qed.

End Tracking.

(** ** The commands and the route that the bot is tracking *)

Lemma cancel_removes_the_route_aux (ud : user_data) :
  directions (fst (cancel ud)) = None
  /\ current_location (fst (cancel ud)) = current_location ud.
Proof.
  destruct ud as [cl ds dn i rid]. unfold cancel.
  cbn [directions dst_name current_leg route_id current_location
       set_directions set_dst_name set_leg set_route_id].
  split; destruct ds, dn, i, rid; reflexivity.
Qed.

(** After [cancel] there is no route, whatever the user data were, and
    the location is kept; when the bot is tracking a route the four keys
    of the route are deleted and the cancellation is confirmed; when there
    is no route the user data are left as they are. *)
Theorem cancel_removes_the_route (ud : user_data) :
  directions (fst (cancel ud)) = None
  /\ current_location (fst (cancel ud)) = current_location ud
  /\ (tracking ud -> directions ud <> None ->
      cancel ud
      = (mkUserData (current_location ud) None None None None,
         [RouteCanceledMessage]))
  /\ (directions ud = None -> cancel ud = (ud, [NoProgrammedRouteMessage])).
Proof.
  destruct ud as [cl ds dn i rid]. unfold cancel, tracking.
  cbn [directions dst_name current_leg route_id current_location
       set_directions set_dst_name set_leg set_route_id].
  repeat split.
  - destruct ds, dn, i, rid; reflexivity.
  - destruct ds, dn, i, rid; reflexivity.
  - destruct ds as [ds|]; [|congruence].
    intros (_ & Hdn & Hrid & z & Hz & _) _.
    destruct dn; [|congruence]. destruct rid; [|congruence].
    rewrite Hz. reflexivity.
  - intros ->. reflexivity.
Qed.

Section System.

Variable haversine : Coordinates -> Coordinates -> Unit -> Q.
Variable calculate_bearing : Q -> Q -> Q -> Q -> Q.
Variable geocode : string -> result Coordinates.
Variable city : string.

Local Abbreviation go' := (go haversine calculate_bearing geocode city).
Local Abbreviation act' := (act haversine calculate_bearing geocode city).
Local Abbreviation acts' := (acts haversine calculate_bearing geocode city).

Lemma start_keeps_tracking (ud : user_data) : tracking (fst (start ud)).
Proof. exact I. Qed.

Lemma cancel_keeps_tracking (ud : user_data) : tracking (fst (cancel ud)).
Proof.
  unfold tracking.
  now rewrite (proj1 (cancel_removes_the_route_aux ud)).
Qed.

(** [go] does not touch the location, and leaves the user data of a user
    who already has a route as they are. *)
Lemma go_keeps_location (g : Graph) (args : list string) (now : string)
      (ud : user_data) :
  current_location (fst (go' g args now ud)) = current_location ud
  /\ (directions ud <> None -> fst (go' g args now ud) = ud).
Proof.
  destruct ud as [cl ds dn i rid]. unfold go.
  cbn [directions dst_name current_leg route_id current_location
       set_directions set_dst_name set_leg set_route_id].
  destruct args as [|arg args]; [now split|].
  destruct ds as [ds|]; [now split|].
  split; [|congruence].
  destruct cl as [c|]; [|reflexivity].
  destruct (geocode _); [|reflexivity].
  destruct (get_directions _ _ _ _ _); [|reflexivity].
  destruct (py_get _ _); reflexivity.
Qed.

Lemma go_keeps_tracking (g : Graph) (args : list string) (now : string)
      (ud : user_data) :
  tracking ud -> tracking (fst (go' g args now ud)).
Proof.
  destruct ud as [cl ds dn i rid]. unfold go.
  cbn [directions dst_name current_leg route_id current_location
       set_directions set_dst_name set_leg set_route_id].
  intro H.
  destruct args as [|arg args]; [exact H|].
  destruct ds as [ds|]; [exact H|].
  destruct cl as [c|]; [|exact H].
  destruct (geocode _) as [d|]; [|exact I].
  destruct (get_directions haversine calculate_bearing g c d)
    as [legs|] eqn:E; [|exact I].
  destruct (directions_route _ _ _ _ _ _ E)
    as (Hok & _ & (first & tl & -> & _) & _).
  cbn [py_get List.length]. 
  replace (0 <=? 0) with true by reflexivity.
  destruct (Z.ltb_spec 0 (Z.of_nat (S (List.length tl)))); [|lia].
  cbn [andb Z.to_nat nth_error of_option fst].
  unfold tracking. cbn [directions dst_name current_leg route_id].
  repeat split; try assumption; try discriminate.
  exists 0. split; [reflexivity|]. cbn [List.length]. lia.
Qed.

Lemma act_keeps_tracking (g : Graph) (a : action) (ud : user_data) :
  tracking ud -> tracking (act' g a ud).
Proof.
  intro H. destruct a as [| |args now|loc]; cbn [act].
  - apply start_keeps_tracking.
  - apply cancel_keeps_tracking.
  - now apply go_keeps_tracking.
  - exact (proj1 (step_keeps_tracking haversine loc (mkBot ud []) H)).
Qed.

Lemma acts_keep_tracking (g : Graph) (l : list action) :
  tracking (acts' g l new_user).
Proof.
  unfold acts.
  assert (H : tracking new_user) by exact I.
  revert H. generalize new_user.
  induction l as [|a l IH]; intros ud H; [exact H|].
  cbn [fold_left]. apply IH. now apply act_keeps_tracking.
Qed.

(** Whatever a user does, commands and location updates in any order, the
    bot is tracking a route or has none: the step counter is always the
    index of a leg of the directions. *)
Theorem bot_is_always_tracking (g : Graph) (l : list action) :
  tracking (acts' g l new_user).
Proof. exact (acts_keep_tracking g l). Qed.



End System.

(** ** Arriving and drifting *)

Section Scenarios.

Variable haversine : Coordinates -> Coordinates -> Unit -> Q.

Local Abbreviation step := (process_user_location haversine).

(** An update that is farther from the checkpoint than the last location
    by more than the margin sends the warning and nothing else, and only
    records the new location. *)
Theorem off_route_update (loc last k : Coordinates) (ud : user_data)
        (out : list event) (ds : list RouteLeg) (i : Z) (leg : RouteLeg) :
  current_location ud = Some last ->
  directions ud = Some ds ->
  current_leg ud = Some i ->
  py_get ds i = Ok leg ->
  leg_mid leg = WCoords k ->
  (haversine last k METERS + 15 < haversine loc k METERS)%Q ->
  step loc (mkBot ud out)
  = mkBot (mkUserData (Some loc) (Some ds) (dst_name ud) (Some i)
                      (route_id ud))
          (out ++ [Warning]).
Proof.
  intros Hcl Hds Hi Hleg Hk Haway.
  destruct ud as [cl ds0 dn i0 rid].
  cbn [current_location directions current_leg dst_name route_id] in *.
  subst cl ds0 i0.
  bot_unfold. rewrite Hleg. bot_unfold. rewrite Hk.
  unfold _is_moving_away_from_the_route, py_haversine, default_margin.
  cbv beta iota delta [bind].
  rewrite (proj2 (Qltb_lt _ _) Haway). reflexivity.
Qed.

(** A great-circle distance is not negative. *)
Hypothesis haversine_nonneg :
  forall p1 p2 unit, (0 <= haversine p1 p2 unit)%Q.

(** An update within the margin of the checkpoint of the last leg ends
    the route, wherever the last location was: the picture of the whole
    route and the final message are sent, the four keys of the route are
    deleted and the location is kept. *)
Theorem arrival_at_the_destination (loc last k : Coordinates)
        (out : list event) (ds : list RouteLeg) (i : Z) (leg : RouteLeg)
        (destination_name rid : string) :
  py_get ds i = Ok leg ->
  leg_mid leg = WCoords k ->
  i + 1 = Z.of_nat (List.length ds) ->
  (haversine loc k METERS <= 15)%Q ->
  step loc (mkBot (mkUserData (Some last) (Some ds) (Some destination_name)
                              (Some i) (Some rid)) out)
  = mkBot (mkUserData (Some loc) None None None None)
          (out ++ [Photo rid (i + 1); FinalMessage destination_name]).
Proof.
  intros Hleg Hk Hlast Hnear.
  bot_unfold. rewrite Hleg. bot_unfold. rewrite Hk.
  unfold _is_moving_away_from_the_route, _are_next_to_each_other,
    py_haversine, default_margin.
  cbv beta iota delta [bind].
  pose proof (haversine_nonneg last k METERS) as Hpos.
  rewrite (proj2 (Qltb_ge _ _)) by lra.
  bot_unfold. rewrite (proj2 (Qle_bool_iff _ _) Hnear).
  bot_unfold. rewrite (proj2 (Z.eqb_eq _ _) Hlast).
  bot_unfold. now rewrite <- app_assoc.
Qed.

(** An update within the margin of a checkpoint that is not the last one
    advances the step counter by one and keeps the route; the user is
    sent the next-checkpoint message, the turning message when the leg
    has a turn angle, and the picture of the route at the new leg. *)
Theorem arrival_at_a_checkpoint (loc last k : Coordinates)
        (out : list event) (ds : list RouteLeg) (i : Z) (leg : RouteLeg)
        (destination_name rid : string) :
  py_get ds i = Ok leg ->
  leg_ok leg ->
  leg_mid leg = WCoords k ->
  i + 1 <> Z.of_nat (List.length ds) ->
  (haversine loc k METERS <= 15)%Q ->
  exists m,
    _get_next_checkpoint_message
      haversine
      (mkUserData (Some loc) (Some ds) (Some destination_name) (Some i)
                  (Some rid)) = Ok m
    /\ step loc (mkBot (mkUserData (Some last) (Some ds)
                                   (Some destination_name) (Some i)
                                   (Some rid)) out)
       = mkBot (mkUserData (Some loc) (Some ds) (Some destination_name)
                           (Some (i + 1)) (Some rid))
               (out ++ NextCheckpointMessage m
                    :: match leg_angle leg with
                       | Some a =>
                           match _get_turning_message (Some a) with
                           | Ok turn_ => [TurningMessage turn_]
                           | Err _ => []
                           end
                       | None => []
                       end
                    ++ [Photo rid (i + 1)]).
Proof.
  intros Hleg Hok Hk Hlast Hnear.
  destruct (next_checkpoint_message_of_leg haversine
              (mkUserData (Some loc) (Some ds) (Some destination_name)
                          (Some i) (Some rid))
              ds i leg eq_refl eq_refl Hleg Hok) as [m Hm].
  exists m. split; [exact Hm|].
  bot_unfold. rewrite Hleg. bot_unfold. rewrite Hk.
  unfold _is_moving_away_from_the_route, _are_next_to_each_other,
    py_haversine, default_margin.
  cbv beta iota delta [bind].
  pose proof (haversine_nonneg last k METERS) as Hpos.
  rewrite (proj2 (Qltb_ge _ _)) by lra.
  bot_unfold. rewrite (proj2 (Qle_bool_iff _ _) Hnear).
  bot_unfold. rewrite (proj2 (Z.eqb_neq _ _) Hlast).
  bot_unfold. rewrite Hm. bot_unfold.
  destruct (leg_angle leg) as [ang|].
  - destruct (turning_message_of_Some ang) as [t ->]. bot_unfold.
    rewrite <- !app_assoc. reflexivity.
  - bot_unfold. rewrite <- !app_assoc. reflexivity.
Qed.

End Scenarios.

(** ** The theorems on the walk *)

Definition walk_first_leg : RouteLeg :=
  Eval vm_compute in
    nth 0 walk_directions (mkLeg WNone None None WNone None WNone None).

Definition walk_last_leg : RouteLeg :=
  Eval vm_compute in
    nth 3 walk_directions (mkLeg WNone None None WNone None WNone None).


Lemma walk_is_tracked : tracking walk_user_data.
Proof.
  unfold tracking. cbn [directions walk_user_data dst_name route_id
                        current_leg].
  split.
  - unfold walk_directions.
    repeat constructor; eexists; reflexivity.
  - split; [discriminate|]. split; [discriminate|].
    exists 0. split; [reflexivity|]. split; [reflexivity|reflexivity].
Defined.


Lemma off_route_update_witness :
  process_user_location grid_haversine (- (1 # 1000), 0)%Q walk_bot
  = mkBot (mkUserData (Some (- (1 # 1000), 0)%Q) (Some walk_directions)
                      (Some "Sagrada Familia"%string) (Some 0)
                      (Some "101500"%string))
          ([] ++ [Warning]).
Proof.
  exact (off_route_update grid_haversine (- (1 # 1000), 0)%Q walk_start
           (0, 0)%Q walk_user_data [] walk_directions 0 walk_first_leg
           eq_refl eq_refl eq_refl eq_refl eq_refl eq_refl).
Defined.

Lemma arrival_at_the_destination_witness :
  process_user_location
    grid_haversine walk_end
    (mkBot (mkUserData (Some (2 # 1000, 0)%Q) (Some walk_directions)
                       (Some "Sagrada Familia"%string) (Some 3)
                       (Some "101500"%string)) [])
  = mkBot (mkUserData (Some walk_end) None None None None)
          ([] ++ [Photo "101500" (3 + 1); FinalMessage "Sagrada Familia"]).
Proof.
  apply (arrival_at_the_destination grid_haversine grid_haversine_nonneg
           walk_end (2 # 1000, 0)%Q walk_end [] walk_directions 3
           walk_last_leg).
  - reflexivity.
  - reflexivity.
  - reflexivity.
  - discriminate.
Defined.

Lemma arrival_at_a_checkpoint_witness :
  exists m,
    _get_next_checkpoint_message
      grid_haversine
      (mkUserData (Some (0, 0)%Q) (Some walk_directions)
                  (Some "Sagrada Familia"%string) (Some 0)
                  (Some "101500"%string)) = Ok m
    /\ process_user_location
         grid_haversine (0, 0)%Q
         (mkBot (mkUserData (Some walk_start) (Some walk_directions)
                            (Some "Sagrada Familia"%string) (Some 0)
                            (Some "101500"%string)) [])
       = mkBot (mkUserData (Some (0, 0)%Q) (Some walk_directions)
                           (Some "Sagrada Familia"%string) (Some (0 + 1))
                           (Some "101500"%string))
               ([] ++ NextCheckpointMessage m
                   :: match leg_angle walk_first_leg with
                      | Some a =>
                          match _get_turning_message (Some a) with
                          | Ok turn_ => [TurningMessage turn_]
                          | Err _ => []
                          end
                      | None => []
                      end
                   ++ [Photo "101500" (0 + 1)]).
Proof.
  apply (arrival_at_a_checkpoint grid_haversine grid_haversine_nonneg
           (0, 0)%Q walk_start (0, 0)%Q [] walk_directions 0
           walk_first_leg).
  - reflexivity.
  - split; eexists; reflexivity.
  - reflexivity.
  - discriminate.
  - discriminate.
Defined.


(** ** The picture of the route *)

(** What [plot_directions] adds to the map: the rendering itself and the
    file are left out. *)
Inductive line_color : Type := DoneRoute | RemainingRoute.
Inductive circle_kind : Type :=
  IntermediatePoint | SourcePoint | DestinationPoint.
Inductive icon_kind : Type := UserIcon | DestinationIcon.

Inductive shape : Type :=
| Line (coords1 coords2 : Q * Q) (color : line_color)
| CircleMarker (coord : Q * Q) (kind : circle_kind)
| IconMarker (coord : Q * Q) (kind : icon_kind).

(** [(w[1], w[0])]: subscripting raises unless [w] is a tuple. *)
Definition swapped (w : waypoint) : result (Q * Q) :=
  match w with
  | WCoords c => Ok (snd c, fst c)
  | _ => Err TypeError
  end.

(** [Guide.plot_directions], lines 295-315: the loop over the legs, from
    the index [leg_idx] on. *)
Fixpoint plot_legs (directions : list RouteLeg) (leg_idx current_leg : Z)
  : result (list shape) :=
  match directions with
  | [] => Ok []
  | leg :: rest =>
      let line_color_ :=
        if leg_idx <? current_leg then DoneRoute else RemainingRoute in
      _src_coords <- swapped (leg_src leg) ;;
      _dst_coords <- swapped (leg_mid leg) ;;
      shapes <- plot_legs rest (leg_idx + 1) current_leg ;;
      Ok (Line _src_coords _dst_coords line_color_
            :: CircleMarker _src_coords IntermediatePoint :: shapes)
  end.

(** [Guide.plot_directions] *)
Definition plot_directions (directions : list RouteLeg) (current_leg : Z)
  : result (list shape) :=
  lines <- plot_legs directions 0 current_leg ;;
  first_leg <- py_get directions 0 ;;
  src_coords <- swapped (leg_src first_leg) ;;
  last_leg <- py_get directions (-1) ;;
  dst_coords <- swapped (leg_mid last_leg) ;;
  current_coords <-
    (if current_leg <? Z.of_nat (List.length directions) then
       leg <- py_get directions current_leg ;;
       swapped (leg_src leg)
     else
       leg <- py_get directions (current_leg - 1) ;;
       swapped (leg_mid leg)) ;;
  Ok (lines ++ [CircleMarker src_coords SourcePoint;
                CircleMarker dst_coords DestinationPoint;
                IconMarker current_coords UserIcon;
                IconMarker dst_coords DestinationIcon]).

Definition is_done_line (s : shape) : bool :=
  match s with
  | Line _ _ DoneRoute => true
  | _ => false
  end.

Definition is_line (s : shape) : bool :=
  match s with
  | Line _ _ _ => true
  | _ => false
  end.

(** With no leg there is nothing to draw and [directions[0]] raises. *)
Theorem plot_directions_of_no_leg (current_leg : Z) :
  plot_directions [] current_leg = Err IndexError.
Proof.
  unfold plot_directions. cbn [plot_legs bind]. unfold py_get.
  cbn [List.length Z.of_nat]. reflexivity.
Qed.

Lemma plot_legs_ok (directions : list RouteLeg) :
  Forall leg_ok directions ->
  forall leg_idx current_leg,
  exists lines,
    plot_legs directions leg_idx current_leg = Ok lines
    /\ List.length (filter is_line lines) = List.length directions
    /\ Z.of_nat (List.length (filter is_done_line lines))
       = Z.max 0 (Z.min (current_leg - leg_idx)
                        (Z.of_nat (List.length directions))).
Proof.
  induction 1 as [|leg rest [[a Ha] [b Hb]] _ IH]; intros leg_idx current_leg.
  - exists []. cbn. repeat split. lia.
  - destruct (IH (leg_idx + 1) current_leg) as (lines & E & Hn & Hd).
    cbn [plot_legs]. rewrite Ha, Hb. cbn [swapped bind]. rewrite E.
    cbn [bind]. eexists. split; [reflexivity|].
    cbn [filter is_line is_done_line List.length]. split; [now rewrite Hn|].
    destruct (Z.ltb_spec leg_idx current_leg); cbn [List.length]; lia.
Qed.

Lemma src_chained_nth (ds : list RouteLeg) :
  forall k l1 l2,
    src_chained ds ->
    nth_error ds k = Some l1 ->
    nth_error ds (S k) = Some l2 ->
    leg_src l2 = leg_mid l1.
Proof.
  induction ds as [|a ds IH]; intros k l1 l2 H H1 H2;
    [destruct k; discriminate|].
  destruct ds as [|b ds]; [destruct k; discriminate|].
  cbn [src_chained] in H. destruct H as [Hab Hrest].
  destruct k as [|k].
  - cbn in H1, H2. injection H1 as <-. injection H2 as <-. exact Hab.
  - exact (IH k l1 l2 Hrest H1 H2).
Qed.

(** On directions that the bot can track, with the step counter between
    1 and the number of legs, the picture is drawn: one line per leg, as
    many of them in the colour of the part that is done as the step
    counter says, and the icon of the user at the checkpoint of the leg
    before the current one, the checkpoint that was just reached. *)
Theorem plot_directions_on_the_route (directions : list RouteLeg)
        (current_leg : Z) :
  Forall leg_ok directions ->
  src_chained directions ->
  1 <= current_leg <= Z.of_nat (List.length directions) ->
  exists lines src_coords dst_coords reached c,
    plot_directions directions current_leg
    = Ok (lines ++ [CircleMarker src_coords SourcePoint;
                    CircleMarker dst_coords DestinationPoint;
                    IconMarker (snd c, fst c) UserIcon;
                    IconMarker dst_coords DestinationIcon])
    /\ py_get directions (current_leg - 1) = Ok reached
    /\ leg_mid reached = WCoords c
    /\ List.length (filter is_line lines) = List.length directions
    /\ Z.of_nat (List.length (filter is_done_line lines)) = current_leg.
Proof.
  intros Hok Hchain Hk.
  destruct (plot_legs_ok directions Hok 0 current_leg)
    as (lines & Elines & Hn & Hd).
  destruct (py_get_in_range directions 0 ltac:(lia))
    as (first & Efirst & Hfirst).
  destruct (py_get_in_range directions (current_leg - 1) ltac:(lia))
    as (reached & Ereached & Hreached).
  assert (Elast : exists last_leg,
             py_get directions (-1) = Ok last_leg /\ In last_leg directions).
  { unfold py_get.
    replace (0 <=? -1) with false by reflexivity. cbn [andb].
    destruct (Z.leb_spec (- Z.of_nat (List.length directions)) (-1)); [|lia].
    cbn [andb Z.ltb Z.compare].
    destruct (nth_error directions
                (Z.to_nat (Z.of_nat (List.length directions) + -1)))
      as [x|] eqn:E.
    - exists x. split; [reflexivity|]. exact (nth_error_In _ _ E).
    - apply nth_error_None in E. lia. }
  destruct Elast as (last_leg & Elast & Hlast).
  pose proof (proj1 (Forall_forall _ _) Hok) as Hall.
  destruct (Hall _ Hfirst) as [[s Hs] _].
  destruct (Hall _ Hlast) as [_ [d Hd']].
  destruct (Hall _ Hreached) as [_ [c Hc]].
  exists lines, (snd s, fst s), (snd d, fst d), reached, c.
  split; [|repeat split; try assumption; lia].
  unfold plot_directions. rewrite Elines, Efirst, Elast.
  cbn [bind]. rewrite Hs, Hd'. cbn [swapped bind].
  destruct (Z.ltb_spec current_leg (Z.of_nat (List.length directions)))
    as [Hlt|Hge].
  - destruct (py_get_in_range directions current_leg ltac:(lia))
      as (cur & Ecur & Hcur).
    rewrite Ecur. cbn [bind].
    assert (Hsrc : leg_src cur = leg_mid reached).
    { unfold py_get in Ecur, Ereached.
      destruct (Z.leb_spec 0 current_leg); [|lia].
      destruct (Z.leb_spec 0 (current_leg - 1)); [|lia].
      destruct (Z.ltb_spec current_leg (Z.of_nat (List.length directions)));
        [|lia].
      destruct (Z.ltb_spec (current_leg - 1)
                           (Z.of_nat (List.length directions))); [|lia].
      cbn [andb] in Ecur, Ereached.
      replace (Z.to_nat current_leg)
        with (S (Z.to_nat (current_leg - 1))) in Ecur by lia.
      destruct (nth_error directions (Z.to_nat (current_leg - 1)))
        as [l1|] eqn:E1; [|discriminate Ereached].
      destruct (nth_error directions (S (Z.to_nat (current_leg - 1))))
        as [l2|] eqn:E2; [|discriminate Ecur].
      cbn in Ecur, Ereached. injection Ecur as <-. injection Ereached as <-.
      exact (src_chained_nth _ _ _ _ Hchain E1 E2). }
    rewrite Hsrc, Hc. reflexivity.
  - rewrite Ereached. cbn [bind]. rewrite Hc. reflexivity.
Qed.

Lemma walk_is_chained : src_chained walk_directions.
Proof. unfold walk_directions. cbn. repeat split. Defined.

Lemma plot_directions_on_the_route_witness :
  exists lines src_coords dst_coords reached c,
    plot_directions walk_directions 1
    = Ok (lines ++ [CircleMarker src_coords SourcePoint;
                    CircleMarker dst_coords DestinationPoint;
                    IconMarker (snd c, fst c) UserIcon;
                    IconMarker dst_coords DestinationIcon])
    /\ py_get walk_directions (1 - 1) = Ok reached
    /\ leg_mid reached = WCoords c
    /\ List.length (filter is_line lines) = List.length walk_directions
    /\ Z.of_nat (List.length (filter is_done_line lines)) = 1.
Proof.
  apply (plot_directions_on_the_route walk_directions 1).
  - exact (proj1 walk_is_tracked).
  - exact walk_is_chained.
  - split; [reflexivity|discriminate].
Defined.

(** ** graph.py: the arguments of a graph *)

(** [place.split(',')] *)
Fixpoint split_comma (s : string) : list string :=
  match s with
  | EmptyString => [EmptyString]
  | String c s' =>
      if Ascii.eqb c ","%char then EmptyString :: split_comma s'
      else match split_comma s' with
           | [] => [String c EmptyString]
           | w :: ws => String c w :: ws
           end
  end.

Fixpoint count_commas (s : string) : nat :=
  match s with
  | EmptyString => 0
  | String c s' =>
      if Ascii.eqb c ","%char then S (count_commas s') else count_commas s'
  end.

(** The two [ValueError]s of [Graph.__init__]. *)
Inductive value_error : Type :=
| BadNetworkType (network_type : string)
| BadPlaceFormat.

(** [Graph.__init__], lines 49-57: the sanity check of the parameters. *)
Definition check_parameters (place network_type : string)
  : option value_error :=
  if negb (String.eqb network_type "walk" || String.eqb network_type "drive")
  then Some (BadNetworkType network_type)
  else if negb (Nat.eqb (List.length (split_comma place)) 2)
       then Some BadPlaceFormat
       else None.

Lemma split_comma_length (s : string) :
  List.length (split_comma s) = S (count_commas s).
Proof.
  induction s as [|c s IH]; [reflexivity|].
  cbn [split_comma count_commas].
  destruct (Ascii.eqb c ","%char).
  - cbn [List.length]. now rewrite IH.
  - destruct (split_comma s) as [|w ws]; [discriminate IH|].
    cbn [List.length] in *. exact IH.
Qed.

(** A graph is created only for the network types "walk" and "drive" and
    for a place with exactly one comma; the network type is checked
    first, so a bad network type is reported whatever the place is. *)
Theorem graph_parameters (place network_type : string) :
  (check_parameters place network_type = None <->
   (network_type = "walk"%string \/ network_type = "drive"%string)
   /\ count_commas place = 1%nat)
  /\ (network_type <> "walk"%string -> network_type <> "drive"%string ->
      check_parameters place network_type
      = Some (BadNetworkType network_type)).
Proof.
  unfold check_parameters. rewrite split_comma_length.
  destruct (String.eqb_spec network_type "walk") as [Hw|Hw];
    destruct (String.eqb_spec network_type "drive") as [Hd|Hd];
    cbn [orb negb].
  - subst. discriminate Hd.
  - destruct (Nat.eqb_spec (S (count_commas place)) 2) as [E|E]; cbn [negb];
      (split; [split|intros; congruence]).
    + intros _. split; [now left|lia].
    + reflexivity.
    + discriminate.
    + intros [_ H]. lia.
  - destruct (Nat.eqb_spec (S (count_commas place)) 2) as [E|E]; cbn [negb];
      (split; [split|intros; congruence]).
    + intros _. split; [now right|lia].
    + reflexivity.
    + discriminate.
    + intros [_ H]. lia.
  - split; [split|reflexivity].
    + discriminate.
    + intros [[H|H] _]; congruence.
Qed.

(** ** The next-checkpoint message *)

Section CheckpointMessage.

Variable haversine : Coordinates -> Coordinates -> Unit -> Q.

(** Without a step counter or without directions the message raises
    [KeyError]; with a step counter that is not an index of the
    directions it raises [IndexError]. *)
Theorem checkpoint_message_errors (ud : user_data) :
  (current_leg ud = None ->
   _get_next_checkpoint_message haversine ud = Err KeyError)
  /\ (directions ud = None ->
      _get_next_checkpoint_message haversine ud = Err KeyError)
  /\ (forall ds i,
         directions ud = Some ds -> current_leg ud = Some i ->
         (i < - Z.of_nat (List.length ds) \/ Z.of_nat (List.length ds) <= i) ->
         _get_next_checkpoint_message haversine ud = Err IndexError).
Proof.
  unfold _get_next_checkpoint_message. repeat split.
  - intros ->. reflexivity.
  - intros ->. destruct (current_leg ud); reflexivity.
  - intros ds i -> -> Hi. cbv beta iota delta [of_option bind].
    unfold py_get.
    destruct (Z.ltb_spec i (Z.of_nat (List.length ds)));
      destruct (Z.leb_spec (- Z.of_nat (List.length ds)) i);
      destruct (Z.leb_spec 0 i); destruct (Z.ltb_spec i 0);
      cbn [andb]; try reflexivity; lia.
Qed.

(** The message numbers the next checkpoint one above the step counter;
    it says that the destination is close exactly when the leg has no
    forward point; and it carries a turning instruction only for a turn
    angle of more than 22.5 degrees either way, so the instruction is
    never the one to go straight ahead. *)
Theorem checkpoint_message_content (ud : user_data)
        (m : checkpoint_message) :
  _get_next_checkpoint_message haversine ud = Ok m ->
  exists ds i leg,
    directions ud = Some ds /\ current_leg ud = Some i
    /\ py_get ds i = Ok leg
    /\ msg_reached m = i /\ msg_next m = i + 1
    /\ msg_you_are_at m = leg_src leg /\ msg_coordinates m = leg_mid leg
    /\ ((exists distance, msg_instruction m = DestinationClose distance)
        <-> leg_dst leg = WNone)
    /\ (forall street distance turning_m,
           msg_instruction m = GoStraight street distance (Some turning_m) ->
           (exists a, leg_angle leg = Some a /\ (45 # 2 < Qabs a)%Q)
           /\ turning_m <> lower "Go straight ahead ⬆️").
Proof.
  unfold _get_next_checkpoint_message. intro H.
  destruct (current_leg ud) as [i|]; [|discriminate H].
  destruct (directions ud) as [ds|]; [|discriminate H].
  cbv beta iota delta [of_option bind] in H.
  destruct (py_get ds i) as [leg|] eqn:Eleg; [|discriminate H].
  exists ds, i, leg. do 2 (split; [reflexivity|]). split; [exact Eleg|].
  assert (Hturn : forall a t,
             (45 # 2 < Qabs a)%Q ->
             _get_turning_message (Some a) = Ok t ->
             lower t <> lower "Go straight ahead ⬆️").
  { intros a t Ha Ht.
    unfold _get_turning_message, py_abs, py_lt0, is_None in Ht.
    cbv beta iota delta [bind] in Ht. rewrite orb_false_r in Ht.
    destruct (Qltb_spec (Qabs a) (45 # 2)); [lra|].
    destruct (Qltb a 0); destruct (Qltb (Qabs a) (135 # 2));
      try destruct (Qltb (Qabs a) (225 # 2));
      injection Ht as <-; vm_compute; discriminate. }
  destruct (match leg_length leg with
            | Some d => Ok d
            | None => py_haversine haversine (leg_src leg) (leg_mid leg) METERS
            end) as [distance|]; [|discriminate H].
  cbv beta iota zeta in H.
  destruct (leg_dst leg) as [c|n|];
    try (destruct (leg_angle leg) as [a|];
         [destruct (Qltb_spec (45 # 2) (Qabs a)) as [Ha|Ha];
          [destruct (_get_turning_message (Some a)) as [t|] eqn:Et;
           [|discriminate H]; cbn [bind] in H|]|]);
    injection H as <-;
    cbn [msg_reached msg_next msg_you_are_at msg_coordinates
         msg_instruction];
    repeat (split; [reflexivity|]);
    (split;
     [split;
      [intros [? Hd]; first [discriminate Hd|reflexivity]
      |intro Hn; first [discriminate Hn|eexists; reflexivity]]
     |intros ? ? ? Hm;
      first [discriminate Hm
            |injection Hm as _ _ <-;
             split; [exists a; split; [reflexivity|exact Ha]
                    |exact (Hturn a t Ha Et)]]]).
Qed.

End CheckpointMessage.

Definition walk_first_message : checkpoint_message :=
  Eval vm_compute in
    match _get_next_checkpoint_message grid_haversine walk_user_data with
    | Ok m => m
    | Err _ => mkMessage 0 WNone 0 WNone None (DestinationClose 0)
    end.

Lemma checkpoint_message_content_witness :
  exists ds i leg,
    directions walk_user_data = Some ds /\ current_leg walk_user_data = Some i
    /\ py_get ds i = Ok leg
    /\ msg_reached walk_first_message = i
    /\ msg_next walk_first_message = i + 1
    /\ msg_you_are_at walk_first_message = leg_src leg
    /\ msg_coordinates walk_first_message = leg_mid leg
    /\ ((exists distance,
            msg_instruction walk_first_message = DestinationClose distance)
        <-> leg_dst leg = WNone)
    /\ (forall street distance turning_m,
           msg_instruction walk_first_message
           = GoStraight street distance (Some turning_m) ->
           (exists a, leg_angle leg = Some a /\ (45 # 2 < Qabs a)%Q)
           /\ turning_m <> lower "Go straight ahead ⬆️").
Proof.
  exact (checkpoint_message_content grid_haversine walk_user_data
           walk_first_message eq_refl).
Defined.
